(** * RingCentral / LiveKit connector: the audio re-packetization pipelines

    A shallow embedding of [src/index.ts] and of the [utils] module that
    follows it in the same file:

    - the [audioPacket] handler registered by [inviteUserToRoom]
      (call leg -> room) and the lifecycle handlers that own the
      closure variable [callEnded];
    - [sendLivekitAudioStreamToCallSession] (room -> call leg): the
      accumulation buffer, the pending chunk list, the 640-byte slicing
      loop and the RTP sequence number / timestamp bookkeeping.

    Collaborators that live outside the repository (the codec of the call
    session, the room audio source and [Math.random]) are Section
    variables: every theorem holds for all of their behaviours. *)

From Stdlib Require Import String.
From Stdlib Require Import ZArith List Bool Arith Lia.
From Stdlib Require Import Strings.Byte.
From Equations Require Import Equations.
From Equations.Prop Require Import Logic.
Import ListNotations.

Set Implicit Arguments.

(** ** Bytes and typed-array views *)

Definition bytes := list byte.

(** A typed array (or Node [Buffer]) is a window on an [ArrayBuffer].  It is
    kept as the three stretches of that [ArrayBuffer]: what lies before the
    window, the window, and what lies after it; [buffer], [byteOffset] and
    [byteLength] are the properties the source reads (lines 61-63). *)
Module View.
Record t := mk { before : bytes; window : bytes; after : bytes }.

Definition buffer (v : t) : bytes := before v ++ window v ++ after v.
Definition byteOffset (v : t) : nat := length (before v).
Definition byteLength (v : t) : nat := length (window v).

(** The window on [buf] that starts at [off] and shows [len] bytes. *)
Definition of_range (buf : bytes) (off len : nat) : t :=
  mk (firstn off buf) (firstn len (skipn off buf)) (skipn (off + len) buf).
End View.

(** [new Uint8Array(buffer, byteOffset, length)]: element size 1, so only
    the bound check can raise (a RangeError, [None]). *)
Definition new_Uint8Array (buf : bytes) (off len : nat) : option View.t :=
  if length buf <? off + len then None else Some (View.of_range buf off len).

(** [Int16Array], a window counted in 2-byte elements. *)
Module Int16Array.
Definition BYTES_PER_ELEMENT : nat := 2.

Record t := mk { buffer : bytes; byteOffset : nat; length : nat }.

(** [new Int16Array(buffer, byteOffset, num / den)], the third argument
    being the JavaScript quotient of two non-negative integers
    (ECMAScript, InitializeTypedArrayFromArrayBuffer):
    - a [byteOffset] that is not a multiple of the element size raises a
      RangeError;
    - the length goes through ToIndex, which truncates a fractional number
      towards zero ([1.5] becomes [1], without an error);
    - a window that ends after the [ArrayBuffer] raises a RangeError.
    [None] stands for the RangeError. *)
Definition construct (buf : bytes) (off num den : nat) : option t :=
  if negb (off mod BYTES_PER_ELEMENT =? 0) then None
  else
    let newLength := num / den in
    if List.length buf <? off + newLength * BYTES_PER_ELEMENT then None
    else Some (mk buf off newLength).
End Int16Array.

(** [AudioFrame] of the room SDK: the four constructor arguments. *)
Module AudioFrame.
Record t := mk
  { data : Int16Array.t; sampleRate : Z; channels : Z;
    samplesPerChannel : nat }.
End AudioFrame.

(** ** RTP packets (lines 187-205) *)

Module RtpHeader.
Record t := mk
  { version : Z; padding : bool; paddingSize : Z; extension : bool;
    marker : bool; payloadOffset : Z; payloadType : Z;
    sequenceNumber : Z; timestamp : Z; ssrc : Z; csrcLength : Z;
    csrc : list Z; extensionProfile : Z; extensions : list bytes }.
End RtpHeader.

Module RtpPacket.
Record t := mk { header : RtpHeader.t; payload : bytes }.
End RtpPacket.

(** ** Console output *)

Inductive Log :=
| ErrCaptureFrame                (* line 67 *)
| ErrStreamRequired              (* line 104 *)
| ErrAlreadyDisposed             (* line 109 *)
| LogCallEnded                   (* line 136 *)
| LogInvalidFrame                (* line 142 *)
| LogOverflow (dropped : nat)    (* line 156 *)
| ErrEncoding                    (* line 217 *)
| ErrStream                      (* line 223 *)
| LogGC                         (* line 248 *)
| LogGCFailed                   (* line 250 *)
| LogCompleted (frames kilobytes gc : nat)  (* line 254 *)
| LogFinished.                   (* line 260 *)

Inductive RingCentralLiveKitConnectorCallStatus := ANSWERED | BUSY | DISPOSED.

(** ** Constants of the utils module (lines 91-95, 114-116) *)

(** [Math.random()] returns a double in [[0,1)].  It is represented by the
    numerator [r] of its value [r / 2^53], with [0 <= r < 2^53]; the
    product and [Math.floor] are then exact integer arithmetic. *)
Definition RANDOM_RESOLUTION : Z := 2 ^ 53.

Definition randomInt (r : Z) : Z :=
  (r * (65535 - 1024 + 1)) / RANDOM_RESOLUTION + 1024.

Definition LIVEKIT_FRAME_SIZE : nat := 320.
Definition REQUIRED_BYTES_TO_SEND : nat := LIVEKIT_FRAME_SIZE * 2.
Definition FRAME_SIZE : nat := REQUIRED_BYTES_TO_SEND.
Definition MAX_BUFFER_FRAMES : nat := 5.
Definition MAX_BUFFER_SIZE : nat := FRAME_SIZE * MAX_BUFFER_FRAMES.

Lemma FRAME_SIZE_value : FRAME_SIZE = 640.
Proof. reflexivity. Qed.

Lemma MAX_BUFFER_SIZE_value : MAX_BUFFER_SIZE = 3200.
Proof. reflexivity. Qed.

Global Opaque FRAME_SIZE MAX_BUFFER_SIZE.

(** ** Local variables of one outbound invocation (lines 102, 120-130) *)

Module Locals.
Record t := mk
  { callEnded : bool;             (* the parameter, a copy of the caller's flag *)
    ssrc : Z;
    pcmBuffer : bytes;
    frameBuffer : bytes;
    tempBuffer : list bytes;
    frameCount : nat;
    totalBytesProcessed : nat;
    gcCount : nat;
    timestamp : Z;
    sequenceNumber : Z }.

Definition set_buffers (pcm : bytes) (temp : list bytes) (l : t) : t :=
  mk (callEnded l) (ssrc l) pcm (frameBuffer l) temp (frameCount l)
     (totalBytesProcessed l) (gcCount l) (timestamp l) (sequenceNumber l).

Definition set_frame (pcm frame : bytes) (l : t) : t :=
  mk (callEnded l) (ssrc l) pcm frame (tempBuffer l) (frameCount l)
     (totalBytesProcessed l) (gcCount l) (timestamp l) (sequenceNumber l).

Definition set_counters (frames total : nat) (l : t) : t :=
  mk (callEnded l) (ssrc l) (pcmBuffer l) (frameBuffer l) (tempBuffer l)
     frames total (gcCount l) (timestamp l) (sequenceNumber l).

Definition set_rtp (ts seq : Z) (l : t) : t :=
  mk (callEnded l) (ssrc l) (pcmBuffer l) (frameBuffer l) (tempBuffer l)
     (frameCount l) (totalBytesProcessed l) (gcCount l) ts seq.
End Locals.

(** ** The objects shared by every handler

    The call session ([disposed], its encoder and decoder), the room audio
    source and the console, together with a record of the calls made on
    the collaborators: the arguments of [encoder.encode] and of
    [sendPacket], in order, and the number of [Math.random] calls. *)

Module World.
Record t (Encoder Decoder : Type) := mk
  { disposed : bool;
    encoder : Encoder;
    decoder : Decoder;
    source : list AudioFrame.t;        (* frames accepted by captureFrame *)
    console : list Log;
    encode_calls : list bytes;
    sendPacket_calls : list RtpPacket.t; (* every call, also one that throws *)
    random_calls : nat }.

Section Setters.
Context {Encoder Decoder : Type}.
Local Abbreviation W := (t Encoder Decoder).

Definition log (e : Log) (w : W) : W :=
  mk (disposed w) (encoder w) (decoder w) (source w) (console w ++ [e])
     (encode_calls w) (sendPacket_calls w) (random_calls w).

Definition set_disposed (b : bool) (w : W) : W :=
  mk b (encoder w) (decoder w) (source w) (console w)
     (encode_calls w) (sendPacket_calls w) (random_calls w).

Definition encoded (e : Encoder) (input : bytes) (w : W) : W :=
  mk (disposed w) e (decoder w) (source w) (console w)
     (encode_calls w ++ [input]) (sendPacket_calls w) (random_calls w).

Definition set_decoder (d : Decoder) (w : W) : W :=
  mk (disposed w) (encoder w) d (source w) (console w)
     (encode_calls w) (sendPacket_calls w) (random_calls w).

Definition captured (f : AudioFrame.t) (w : W) : W :=
  mk (disposed w) (encoder w) (decoder w) (source w ++ [f]) (console w)
     (encode_calls w) (sendPacket_calls w) (random_calls w).

Definition sendPacket (p : RtpPacket.t) (w : W) : W :=
  mk (disposed w) (encoder w) (decoder w) (source w) (console w)
     (encode_calls w) (sendPacket_calls w ++ [p]) (random_calls w).

Definition drew_random (w : W) : W :=
  mk (disposed w) (encoder w) (decoder w) (source w) (console w)
     (encode_calls w) (sendPacket_calls w) (S (random_calls w)).
End Setters.
End World.

(** ** Room audio stream *)

(** What the asynchronous iterator of the room [AudioStream] yields.
    [audioFrame] may be nullish ([None]); its [data] is a typed array,
    represented by the bytes it shows, and is [None] when [data] or
    [data.buffer] is missing. *)
Module RoomFrame.
Record t := mk { data : option bytes }.
End RoomFrame.

(** One settlement of the iterator's [next()]: a frame, the end of the
    stream, or a rejection. *)
Inductive IteratorResult :=
| Yield (audioFrame : option RoomFrame.t)
| Done
| Throw.

(** An invocation is either suspended at the [for await] (with its local
    variables), or has run its [finally] block and returned. *)
Inductive Phase :=
| Running (l : Locals.t)
| Terminated.

Inductive Flow := Continue | Break.

(** ** The closure of [inviteUserToRoom] (lines 25-86) *)

Inductive TrackKind := KIND_UNKNOWN | KIND_AUDIO | KIND_VIDEO.

(** The [options] argument; [onCallStatusChange] tells whether the caller
    passed a callback. *)
Module Options.
Record t := mk
  { listeningParticipantIdentity : option string;
    onCallStatusChange : bool }.
End Options.

(** What the handlers registered by [inviteUserToRoom] close over: the
    shared objects, the connector's [sampleRate] and [channels], the
    variable [callEnded] of line 44, which [once] handlers are still
    registered, the calls made on the status callback, and the outbound
    invocations started so far. *)
Module Invite.
Record t (W : Type) := mk
  { world : W;
    sampleRate : Z;
    channels : Z;
    callEnded : bool;
    once_answered : bool;
    once_busy : bool;
    once_disposed : bool;
    statusChanges : list RingCentralLiveKitConnectorCallStatus;
    streams : list Phase }.
End Invite.

(** What the event loop delivers, one at a time: an event of the call
    session, a [trackSubscribed] of the room (with [Date.now()] at that
    moment), or the settlement of the pending [next()] of the audio stream
    of the [stream]-th invocation. *)
Inductive Event :=
| Emit_answered
| Emit_busy
| Emit_disposed
| Emit_audioPacket (payload : View.t)
| Emit_trackSubscribed (kind : TrackKind) (participant : string) (now : Z)
| Settle (stream : nat) (r : IteratorResult).

Definition TrackKind_eqb (a b : TrackKind) : bool :=
  match a, b with
  | KIND_UNKNOWN, KIND_UNKNOWN | KIND_AUDIO, KIND_AUDIO
  | KIND_VIDEO, KIND_VIDEO => true
  | _, _ => false
  end.

(** [xs[i] = x] for an index inside the list. *)
Fixpoint replace_nth {A} (i : nat) (x : A) (xs : list A) : list A :=
  match xs, i with
  | [], _ => []
  | _ :: rest, O => x :: rest
  | y :: rest, S j => y :: replace_nth j x rest
  end.

(** [source.copy(target, 0, 0, sourceEnd)] of Node's [Buffer]: copies as
    many bytes as the source range and the target can hold, and leaves the
    rest of [target] as it was. *)
Definition buffer_copy (source target : bytes) (sourceEnd : nat) : bytes :=
  let n := Nat.min (Nat.min sourceEnd (length source)) (length target) in
  firstn n source ++ skipn n target.

Definition sum_lengths (chunks : list bytes) (init : nat) : nat :=
  fold_left (fun sum buf => sum + length buf) chunks init.

Section Pipelines.

(** The codec of the call session: [encoder.encode] and [decoder.decode]
    with their internal state; [None] is a thrown exception. *)
Variable Encoder : Type.
Variable encode : Encoder -> bytes -> Encoder * option bytes.
Variable Decoder : Type.
Variable decode : Decoder -> View.t -> Decoder * option View.t.

(** [callSession.softphone.codec]. *)
Variable codec_id : Z.
Variable codec_timestampInterval : Z.

(** Whether [source.captureFrame] throws on a frame, given the frames it
    accepted so far. *)
Variable captureFrame_throws : list AudioFrame.t -> AudioFrame.t -> bool.

(** The double returned by the k-th call of [Math.random] (its numerator,
    see [randomInt]). *)
Variable Math_random : nat -> Z.

(** Whether [callSession.sendPacket] throws on a packet, given the packets
    handed to it so far. *)
Variable sendPacket_throws : list RtpPacket.t -> RtpPacket.t -> bool.

Local Abbreviation W := (World.t Encoder Decoder).
Local Abbreviation State := (W * Locals.t)%type.

(** *** Inbound: the [audioPacket] handler (lines 59-69) *)

Definition on_audioPacket (sampleRate channels : Z) (payload : View.t) (w : W) : W :=
  match new_Uint8Array (View.buffer payload) (View.byteOffset payload)
                       (View.byteLength payload) with
  | None => World.log ErrCaptureFrame w
  | Some encoded =>
    let (d, r) := decode (World.decoder w) encoded in
    let w1 := World.set_decoder d w in
    match r with
    | None => World.log ErrCaptureFrame w1
    | Some pcm =>
      match Int16Array.construct (View.buffer pcm) (View.byteOffset pcm)
              (View.byteLength pcm) Int16Array.BYTES_PER_ELEMENT with
      | None => World.log ErrCaptureFrame w1
      | Some pcmSamples =>
        let frame := AudioFrame.mk pcmSamples sampleRate channels
                       (Int16Array.length pcmSamples) in
        if captureFrame_throws (World.source w1) frame
        then World.log ErrCaptureFrame w1
        else World.captured frame w1
      end
    end
  end.

(** *** Outbound: one pass of the inner [while] body (lines 172-219)

    [Buffer.from(encodedData)] copies the encoder's output, so the
    [encodedData.fill(0)] of line 215 does not reach the payload of the
    packet.  The [try] block covers [sendPacket] as well: when it throws,
    the counters have already been advanced (lines 206-210), and the
    [catch] writes the same line as for the encoder. *)

Definition make_packet (l : Locals.t) (encodedPacket : bytes) : RtpPacket.t :=
  RtpPacket.mk
    (RtpHeader.mk 2 false 0 false false 12 codec_id
       (Locals.sequenceNumber l) (Locals.timestamp l) (Locals.ssrc l)
       0 [] 48862 [])
    encodedPacket.

Definition next_sequenceNumber (sequenceNumber : Z) : Z :=
  let incremented := (sequenceNumber + 1)%Z in
  if (65535 <? incremented)%Z then 0%Z else incremented.

Definition send_frame (st : State) : State :=
  let (w, l) := st in
  let frame := buffer_copy (Locals.pcmBuffer l) (Locals.frameBuffer l) FRAME_SIZE in
  let rest :=
    if length (Locals.pcmBuffer l) =? FRAME_SIZE then []
    else skipn FRAME_SIZE (Locals.pcmBuffer l) in
  let l1 := Locals.set_frame rest frame l in
  match encode (World.encoder w) frame with
  | (e, None) => (World.log ErrEncoding (World.encoded e frame w), l1)
  | (e, Some encodedData) =>
    let rtpPacket := make_packet l1 encodedData in
    let l2 := Locals.set_rtp
                (Locals.timestamp l1 + codec_timestampInterval)%Z
                (next_sequenceNumber (Locals.sequenceNumber l1)) l1 in
    let w1 := World.sendPacket rtpPacket (World.encoded e frame w) in
    if sendPacket_throws (World.sendPacket_calls w) rtpPacket
    then (World.log ErrEncoding w1, l2)
    else (w1, l2)
  end.

(** The condition of the [while] (line 171). *)
Definition loop_guard (l : Locals.t) : bool :=
  (FRAME_SIZE <=? length (Locals.pcmBuffer l)) && negb (Locals.callEnded l).

Lemma send_frame_shrinks (st : State) :
  loop_guard (snd st) = true ->
  length (Locals.pcmBuffer (snd (send_frame st))) + FRAME_SIZE
  = length (Locals.pcmBuffer (snd st)).
Proof.
  destruct st as [w l]. unfold loop_guard, send_frame. cbn [snd].
  intros G. apply andb_prop in G as [G _]. apply Nat.leb_le in G.
  assert (length (if length (Locals.pcmBuffer l) =? FRAME_SIZE then []
                  else skipn FRAME_SIZE (Locals.pcmBuffer l)) + FRAME_SIZE
          = length (Locals.pcmBuffer l)) as E.
  { destruct (Nat.eqb_spec (length (Locals.pcmBuffer l)) FRAME_SIZE) as [e|n].
    - rewrite e. reflexivity.
    - rewrite length_skipn. lia. }
  destruct (encode _ _) as [e [d|]]; [destruct (sendPacket_throws _ _)|];
    cbn; exact E.
Qed.

Lemma send_frame_decreases (st : State) :
  loop_guard (snd st) = true ->
  length (Locals.pcmBuffer (snd (send_frame st)))
  < length (Locals.pcmBuffer (snd st)).
Proof.
  intros G. pose proof (send_frame_shrinks st G) as E.
  rewrite FRAME_SIZE_value in E. lia.
Qed.

(** The [while] loop of lines 171-220.  It terminates because every pass
    takes [FRAME_SIZE] bytes off [pcmBuffer]. *)
Equations? drain (st : State) : State
  by wf (length (Locals.pcmBuffer (snd st))) lt :=
  drain st with inspect (loop_guard (snd st)) := {
    | exist _ true G => drain (send_frame st);
    | exist _ false _ => st }.
Proof.
  exact (send_frame_decreases (_, _) G).
Qed.

(** *** Outbound: the body of the [for await] (lines 135-220) *)

(** Memory protection, lines 155-159. *)
Definition protect (chunkSize : nat) (st : State) : State :=
  let (w, l) := st in
  if MAX_BUFFER_SIZE <? length (Locals.pcmBuffer l) + chunkSize
  then (World.log (LogOverflow (length (Locals.pcmBuffer l))) w,
        Locals.set_buffers [] [] l)
  else st.

(** Batched concatenation, lines 162-169: [push], then [unshift] and
    [Buffer.concat] once the pending list has more than 3 entries or a
    whole frame is available. *)
Definition accumulate (chunk : bytes) (l : Locals.t) : Locals.t :=
  let temp := Locals.tempBuffer l ++ [chunk] in
  if (3 <? length temp)
     || (FRAME_SIZE <=? sum_lengths temp (length (Locals.pcmBuffer l)))
  then Locals.set_buffers (concat (Locals.pcmBuffer l :: temp)) [] l
  else Locals.set_buffers (Locals.pcmBuffer l) temp l.

Definition on_frame (audioFrame : option RoomFrame.t) (st : State) : Flow * State :=
  let (w, l) := st in
  if Locals.callEnded l then (Break, (World.log LogCallEnded w, l))
  else
    match audioFrame with
    | Some (RoomFrame.mk (Some data)) =>
      let chunkSize := length data in
      let l1 := Locals.set_counters (S (Locals.frameCount l))
                  (Locals.totalBytesProcessed l + chunkSize) l in
      let (w2, l2) := protect chunkSize (w, l1) in
      (Continue, drain (w2, accumulate data l2))
    | _ => (Continue, (World.log LogInvalidFrame w, l))
    end.

(** *** Outbound: prologue, [finally] block and the coroutine *)

(** [global.gc], when node exposes it: [Some true] if the call returns,
    [Some false] if it throws. *)
Variable global_gc : option bool.

(** Lines 224-261.  The buffers are zeroed and released; what remains
    observable is the console.  [Math.round(n / 1024)] rounds half up. *)
Definition cleanup (w : W) (l : Locals.t) : W :=
  let w1 := match global_gc with
            | Some true => World.log LogGC w
            | Some false => World.log LogGCFailed w
            | None => w
            end in
  World.log LogFinished
    (World.log (LogCompleted (Locals.frameCount l)
                  ((2 * Locals.totalBytesProcessed l + 1024) / 2048)
                  (Locals.gcCount l)) w1).

(** The iterator settles while the invocation is suspended at line 133. *)
Definition resume (r : IteratorResult) (st : State) : W * Phase :=
  let (w, l) := st in
  match r with
  | Yield audioFrame =>
    match on_frame audioFrame st with
    | (Break, (w', l')) => (cleanup w' l', Terminated)
    | (Continue, (w', l')) => (w', Running l')
    end
  | Done => (cleanup w l, Terminated)
  | Throw => (cleanup (World.log ErrStream w) l, Terminated)
  end.

(** Lines 103-130, up to the first suspension.  [now] is [Date.now()];
    [Buffer.allocUnsafe(FRAME_SIZE)] has unspecified contents, taken to be
    zeroes. *)
Definition start (hasStream callEnded : bool) (now : Z) (w : W) : W * Phase :=
  if negb hasStream then (World.log ErrStreamRequired w, Terminated)
  else if World.disposed w then (World.log ErrAlreadyDisposed w, Terminated)
  else
    let timestamp := (now / 1000)%Z in
    let sequenceNumber := Z.rem timestamp 65536 in
    let ssrc := randomInt (Math_random (World.random_calls w)) in
    (World.drew_random w,
     Running (Locals.mk callEnded ssrc [] (repeat x00 FRAME_SIZE) [] 0 0 0
                timestamp sequenceNumber)).

(** Successive settlements of one stream; after the invocation has
    returned nothing is pulled from the iterator any more. *)
Fixpoint feed (rs : list IteratorResult) (s : W * Phase) : W * Phase :=
  match rs with
  | [] => s
  | r :: rest =>
    match snd s with
    | Running l => feed rest (resume r (fst s, l))
    | Terminated => s
    end
  end.

(** The whole function, run on a stream that settles as [rs] says. *)
Definition sendLivekitAudioStreamToCallSession
    (audioStream : option (list IteratorResult)) (callEnded : bool)
    (now : Z) (w : W) : W * Phase :=
  match audioStream with
  | None => start false callEnded now w
  | Some rs => feed rs (start true callEnded now w)
  end.

(** *** The handlers of [inviteUserToRoom] *)

Local Abbreviation Closure := (Invite.t W).

Variable options : Options.t.

Definition notify (status : RingCentralLiveKitConnectorCallStatus)
    (calls : list RingCentralLiveKitConnectorCallStatus) :=
  if Options.onCallStatusChange options then calls ++ [status] else calls.

(** Lines 72-78: the condition under which a subscribed track is piped to
    the call; an absent or empty identity is falsy, and then every audio
    track is piped. *)
Definition selected (kind : TrackKind) (participant : string) : bool :=
  TrackKind_eqb kind KIND_AUDIO
  && match Options.listeningParticipantIdentity options with
     | Some wanted =>
       if (wanted =? "")%string then true else (participant =? wanted)%string
     | None => true
     end.

(** The state right after the handlers are registered (line 44: the call
    has not ended; lines 17-18: 16000 Hz, mono). *)
Definition invited (w : W) : Closure :=
  Invite.mk w 16000 1 false true true true [] [].

(** One turn of the event loop.  The call session sets its own [disposed]
    property when it emits [disposed] (its lifecycle, as the data model of
    the specification states it). *)
Definition dispatch (ev : Event) (s : Closure) : Closure :=
  let 'Invite.mk w rate chans ended a b d calls streams := s in
  match ev with
  | Emit_answered =>                                      (* lines 45-47 *)
    if a then Invite.mk w rate chans ended false b d (notify ANSWERED calls) streams
    else s
  | Emit_busy =>                                          (* lines 49-52 *)
    if b then Invite.mk w rate chans true a false d (notify BUSY calls) streams
    else s
  | Emit_disposed =>                                      (* lines 54-57 *)
    let w' := World.set_disposed true w in
    if d then Invite.mk w' rate chans true a b false (notify DISPOSED calls) streams
    else Invite.mk w' rate chans ended a b d calls streams
  | Emit_audioPacket payload =>                           (* lines 59-69 *)
    Invite.mk (on_audioPacket rate chans payload w) rate chans ended a b d
      calls streams
  | Emit_trackSubscribed kind participant now =>          (* lines 71-83 *)
    if selected kind participant then
      let (w', phase) := start true ended now w in
      Invite.mk w' rate chans ended a b d calls (streams ++ [phase])
    else s
  | Settle i r =>                                         (* line 133 *)
    match nth_error streams i with
    | Some (Running l) =>
      let (w', phase) := resume r (w, l) in
      Invite.mk w' rate chans ended a b d calls (replace_nth i phase streams)
    | _ => s
    end
  end.

Definition run_events (evs : list Event) (s : Closure) : Closure :=
  fold_left (fun s ev => dispatch ev s) evs s.

(** The frame lines 63-65 build from a decoded [pcm] once the
    [Int16Array] exists. *)
Definition inbound_frame (sampleRate channels : Z) (pcm : View.t) : AudioFrame.t :=
  let samples := View.byteLength pcm / Int16Array.BYTES_PER_ELEMENT in
  AudioFrame.mk
    (Int16Array.mk (View.buffer pcm) (View.byteOffset pcm) samples)
    sampleRate channels samples.

(** Whether the [try] block of the [audioPacket] handler throws on a
    payload: in [decode], in the [Int16Array] constructor or in
    [captureFrame]. *)
Definition inbound_throws (sampleRate channels : Z) (payload : View.t) (w : W) : bool :=
  match decode (World.decoder w) payload with
  | (_, None) => true
  | (_, Some pcm) =>
    match Int16Array.construct (View.buffer pcm) (View.byteOffset pcm)
            (View.byteLength pcm) Int16Array.BYTES_PER_ELEMENT with
    | None => true
    | Some pcmSamples =>
      captureFrame_throws (World.source w)
        (AudioFrame.mk pcmSamples sampleRate channels
           (Int16Array.length pcmSamples))
    end
  end.

(** *** What the statements observe *)

(** The header fields every packet of an invocation shares. *)
Definition header_ok (ssrc0 : Z) (pkt : RtpPacket.t) : Prop :=
  let h := RtpPacket.header pkt in
  RtpHeader.ssrc h = ssrc0
  /\ RtpHeader.version h = 2%Z
  /\ RtpHeader.padding h = false
  /\ RtpHeader.extension h = false
  /\ RtpHeader.payloadType h = codec_id.

(** The position [k] (from 0) of a packet among those of the invocation
    fixes its sequence number and timestamp. *)
Definition numbered (seq0 ts0 : Z) (k : nat) (pkt : RtpPacket.t) : Prop :=
  let h := RtpPacket.header pkt in
  RtpHeader.sequenceNumber h = ((seq0 + Z.of_nat k) mod 65536)%Z
  /\ RtpHeader.timestamp h = (ts0 + Z.of_nat k * codec_timestampInterval)%Z.

Definition all_numbered (seq0 ts0 : Z) (new : list RtpPacket.t) : Prop :=
  forall k pkt, nth_error new k = Some pkt -> numbered seq0 ts0 k pkt.

Definition is_overflow (e : Log) : bool :=
  match e with LogOverflow _ => true | _ => false end.

(** How often the memory protection of lines 155-159 has fired, as the
    console shows it. *)
Definition overflows (console : list Log) : nat :=
  length (filter is_overflow console).

Arguments overflows : simpl never.

(** The bytes received and not yet handed to the encoder: the accumulation
    buffer followed by the pending chunks. *)
Definition buffered (l : Locals.t) : bytes :=
  Locals.pcmBuffer l ++ concat (Locals.tempBuffer l).

Definition valid_frame (chunk : bytes) : IteratorResult :=
  Yield (Some (RoomFrame.mk (Some chunk))).

(** ** Properties *)

Unset Implicit Arguments.

(** *** Typed-array views *)

Lemma of_range_view (v : View.t) :
  View.of_range (View.buffer v) (View.byteOffset v) (View.byteLength v) = v.
Proof.
  destruct v as [b w a].
  unfold View.of_range, View.buffer, View.byteOffset, View.byteLength.
  cbn [View.before View.window View.after].
  rewrite firstn_app, firstn_all, Nat.sub_diag, firstn_O, app_nil_r.
  rewrite skipn_app, skipn_all, Nat.sub_diag, skipn_O. cbn [app].
  rewrite firstn_app, firstn_all, Nat.sub_diag, firstn_O, app_nil_r.
  rewrite app_assoc, <- length_app, skipn_app, skipn_all, Nat.sub_diag.
  reflexivity.
Qed.

Lemma view_in_bounds (v : View.t) :
  View.byteOffset v + View.byteLength v <= length (View.buffer v).
Proof.
  unfold View.buffer, View.byteOffset, View.byteLength.
  rewrite !length_app. lia.
Qed.

Lemma new_Uint8Array_view (v : View.t) :
  new_Uint8Array (View.buffer v) (View.byteOffset v) (View.byteLength v)
  = Some v.
Proof.
  unfold new_Uint8Array. pose proof (view_in_bounds v) as B.
  destruct (Nat.ltb_spec (length (View.buffer v))
              (View.byteOffset v + View.byteLength v)); [lia|].
  now rewrite of_range_view.
Qed.

(** With an explicit length, only the alignment of the offset decides
    whether [Int16Array] can be built on a view; a trailing odd byte is
    left out. *)
Lemma construct_on_view (pcm : View.t) :
  Int16Array.construct (View.buffer pcm) (View.byteOffset pcm)
    (View.byteLength pcm) Int16Array.BYTES_PER_ELEMENT
  = if Nat.even (View.byteOffset pcm)
    then Some (Int16Array.mk (View.buffer pcm) (View.byteOffset pcm)
                 (View.byteLength pcm / 2))
    else None.
Proof.
  unfold Int16Array.construct, Int16Array.BYTES_PER_ELEMENT.
  pose proof (view_in_bounds pcm) as B.
  pose proof (Nat.Div0.mul_div_le (View.byteLength pcm) 2) as D.
  destruct (Nat.even (View.byteOffset pcm)) eqn:E.
  - apply Nat.even_spec in E. destruct E as [k E].
    replace (View.byteOffset pcm mod 2) with 0
      by (rewrite E, Nat.mul_comm, Nat.Div0.mod_mul; reflexivity).
    cbn [Nat.eqb negb].
    destruct (Nat.ltb_spec (length (View.buffer pcm))
                (View.byteOffset pcm + View.byteLength pcm / 2 * 2)); [lia|].
    reflexivity.
  - assert (View.byteOffset pcm mod 2 <> 0) as N.
    { intros M. apply Nat.Div0.mod_divides in M. destruct M as [k M].
      rewrite M, Nat.even_mul in E. discriminate. }
    apply Nat.eqb_neq in N. now rewrite N.
Qed.

(** *** The inbound handler *)

(** The handler in one equation: it publishes the frame of the decoded
    bytes when the offset is aligned and [captureFrame] accepts it, and
    otherwise writes one line on the console. *)
Lemma on_audioPacket_unfold rate chans payload (w : W) d r :
  decode (World.decoder w) payload = (d, r) ->
  on_audioPacket rate chans payload w
  = match r with
    | Some pcm =>
      if Nat.even (View.byteOffset pcm)
         && negb (captureFrame_throws (World.source w)
                    (inbound_frame rate chans pcm))
      then World.captured (inbound_frame rate chans pcm) (World.set_decoder d w)
      else World.log ErrCaptureFrame (World.set_decoder d w)
    | None => World.log ErrCaptureFrame (World.set_decoder d w)
    end.
Proof.
  intros D. unfold on_audioPacket.
  rewrite new_Uint8Array_view, D. destruct r as [pcm|]; [|reflexivity].
  rewrite construct_on_view.
  destruct (Nat.even (View.byteOffset pcm)); [|reflexivity].
  cbn [World.source World.set_decoder andb Int16Array.length].
  unfold inbound_frame, Int16Array.BYTES_PER_ELEMENT.
  destruct (captureFrame_throws _ _); reflexivity.
Qed.

Lemma inbound_throws_unfold rate chans payload (w : W) d r :
  decode (World.decoder w) payload = (d, r) ->
  inbound_throws rate chans payload w
  = match r with
    | Some pcm =>
      negb (Nat.even (View.byteOffset pcm)
            && negb (captureFrame_throws (World.source w)
                       (inbound_frame rate chans pcm)))
    | None => true
    end.
Proof.
  intros D. unfold inbound_throws. rewrite D.
  destruct r as [pcm|]; [|reflexivity]. rewrite construct_on_view.
  destruct (Nat.even (View.byteOffset pcm)); [|reflexivity].
  cbn [andb Int16Array.length]. unfold inbound_frame, Int16Array.BYTES_PER_ELEMENT.
  now rewrite negb_involutive.
Qed.

(** No handler assigns the connector's [sampleRate] and [channels]. *)
Lemma dispatch_format ev (s : Closure) :
  Invite.sampleRate (dispatch ev s) = Invite.sampleRate s
  /\ Invite.channels (dispatch ev s) = Invite.channels s.
Proof.
  destruct s as [w rate chans ended a b d calls streams].
  destruct ev; cbn [dispatch].
  - destruct a; auto.
  - destruct b; auto.
  - destruct d; auto.
  - auto.
  - destruct (selected _ _); [destruct (start _ _ _ _)|]; auto.
  - destruct (nth_error streams stream) as [[l|]|]; auto.
    destruct (resume _ _). auto.
Qed.

Lemma run_events_format evs (s : Closure) :
  Invite.sampleRate (run_events evs s) = Invite.sampleRate s
  /\ Invite.channels (run_events evs s) = Invite.channels s.
Proof.
  revert s. induction evs as [|ev evs IH]; intros s; [split; reflexivity|].
  cbn [run_events fold_left]. destruct (IH (dispatch ev s)) as [R C].
  destruct (dispatch_format ev s) as [R' C'].
  split; [now rewrite <- R' | now rewrite <- C'].
Qed.

Lemma dispatch_audioPacket payload (s : Closure) :
  Invite.world (dispatch (Emit_audioPacket payload) s)
  = on_audioPacket (Invite.sampleRate s) (Invite.channels s) payload
      (Invite.world s).
Proof. destruct s. reflexivity. Qed.

(** A packet that decodes, whose samples are aligned and which
    [captureFrame] accepts, adds its frame to the source and nothing to
    the console. *)
Lemma valid_packet_captured payload (s : Closure) d pcm :
  decode (World.decoder (Invite.world s)) payload = (d, Some pcm) ->
  Nat.even (View.byteOffset pcm) = true ->
  captureFrame_throws (World.source (Invite.world s))
    (inbound_frame (Invite.sampleRate s) (Invite.channels s) pcm) = false ->
  let s' := dispatch (Emit_audioPacket payload) s in
  World.source (Invite.world s')
  = World.source (Invite.world s)
    ++ [inbound_frame (Invite.sampleRate s) (Invite.channels s) pcm]
  /\ World.console (Invite.world s') = World.console (Invite.world s).
Proof.
  intros D A C s'. subst s'.
  rewrite dispatch_audioPacket, (on_audioPacket_unfold _ _ _ _ _ _ D), A, C.
  split; reflexivity.
Qed.

(** A packet on which the [try] block throws leaves the source as it was
    and adds one line to the console. *)
Lemma throwing_packet_dropped payload (s : Closure) :
  inbound_throws (Invite.sampleRate s) (Invite.channels s) payload
    (Invite.world s) = true ->
  let s' := dispatch (Emit_audioPacket payload) s in
  World.source (Invite.world s') = World.source (Invite.world s)
  /\ World.console (Invite.world s')
     = World.console (Invite.world s) ++ [ErrCaptureFrame].
Proof.
  intros T s'. subst s'. rewrite dispatch_audioPacket.
  destruct (decode (World.decoder (Invite.world s)) payload) as [d r] eqn:D.
  rewrite (inbound_throws_unfold _ _ _ _ _ _ D) in T.
  rewrite (on_audioPacket_unfold _ _ _ _ _ _ D).
  destruct r as [pcm|]; [|split; reflexivity].
  apply negb_true_iff in T. rewrite T. split; reflexivity.
Qed.

(** C7.  In every state the connector can reach, an inbound packet whose
    payload decodes to [pcm] (samples aligned in their buffer, frame
    accepted by the source) makes the room audio source capture exactly
    one frame; its sample count is the decoded byte length divided by 2
    (exactly half of it when that length is even), its sample rate is
    16000 and it has 1 channel. *)
Theorem inbound_capture_sample_count evs (w0 : W) payload d pcm :
  let s := run_events evs (invited w0) in
  decode (World.decoder (Invite.world s)) payload = (d, Some pcm) ->
  Nat.even (View.byteOffset pcm) = true ->
  captureFrame_throws (World.source (Invite.world s))
    (inbound_frame 16000 1 pcm) = false ->
  exists frame,
    World.source (Invite.world (dispatch (Emit_audioPacket payload) s))
    = World.source (Invite.world s) ++ [frame]
    /\ AudioFrame.samplesPerChannel frame = View.byteLength pcm / 2
    /\ Int16Array.length (AudioFrame.data frame) = View.byteLength pcm / 2
    /\ (Nat.even (View.byteLength pcm) = true ->
        2 * AudioFrame.samplesPerChannel frame = View.byteLength pcm)
    /\ AudioFrame.sampleRate frame = 16000%Z
    /\ AudioFrame.channels frame = 1%Z.
Proof.
  intros s D A C.
  destruct (run_events_format evs (invited w0)) as [R Ch].
  fold s in R, Ch. cbn [invited Invite.sampleRate Invite.channels] in R, Ch.
  exists (inbound_frame 16000 1 pcm).
  destruct (valid_packet_captured payload s d pcm D A) as [S _].
  { now rewrite R, Ch. }
  rewrite R, Ch in S. repeat split; try assumption.
  intros E. unfold inbound_frame, Int16Array.BYTES_PER_ELEMENT.
  cbn [AudioFrame.samplesPerChannel].
  apply Nat.even_spec in E. destruct E as [k E].
  pose proof (Nat.div_mod_eq (View.byteLength pcm) 2) as Q.
  assert (View.byteLength pcm mod 2 = 0) as M
    by (rewrite E, Nat.mul_comm; apply Nat.Div0.mod_mul).
  lia.
Qed.

(** C8.  In every state the connector can reach, a packet on which
    [decode], the construction of the samples or [captureFrame] throws is
    caught by the handler: one line is logged, no frame is published for
    it, and the handler goes on: a following packet that decodes and is
    accepted is captured as usual. *)
Theorem inbound_error_is_contained evs (w0 : W) payload next d pcm :
  let s := run_events evs (invited w0) in
  let s1 := dispatch (Emit_audioPacket payload) s in
  let s2 := dispatch (Emit_audioPacket next) s1 in
  inbound_throws 16000 1 payload (Invite.world s) = true ->
  (World.console (Invite.world s1)
   = World.console (Invite.world s) ++ [ErrCaptureFrame]
   /\ World.source (Invite.world s1) = World.source (Invite.world s))
  /\ (decode (World.decoder (Invite.world s1)) next = (d, Some pcm) ->
      Nat.even (View.byteOffset pcm) = true ->
      captureFrame_throws (World.source (Invite.world s))
        (inbound_frame 16000 1 pcm) = false ->
      World.source (Invite.world s2)
      = World.source (Invite.world s) ++ [inbound_frame 16000 1 pcm]
      /\ World.console (Invite.world s2)
         = World.console (Invite.world s) ++ [ErrCaptureFrame]).
Proof.
  intros s s1 s2 T.
  destruct (run_events_format evs (invited w0)) as [R Ch].
  fold s in R, Ch. cbn [invited Invite.sampleRate Invite.channels] in R, Ch.
  destruct (dispatch_format (Emit_audioPacket payload) s) as [R1 Ch1].
  fold s1 in R1, Ch1. rewrite R in R1. rewrite Ch in Ch1.
  destruct (throwing_packet_dropped payload s) as [S1 C1].
  { now rewrite R, Ch. }
  fold s1 in S1, C1. split; [split; assumption|].
  intros D A C.
  destruct (valid_packet_captured next s1 d pcm D A) as [S2 C2].
  { now rewrite R1, Ch1, S1. }
  fold s2 in S2, C2. now rewrite S2, C2, S1, C1, R1, Ch1.
Qed.

(** C10, as amended.  When the decoded PCM has an odd byte length the
    [Int16Array] is still built if its offset is aligned: the length
    argument is truncated, the trailing byte is left out, and the frame
    of the remaining samples is captured.  The construction fails only on
    an odd offset; that failure is caught, nothing is published for the
    packet, and a following valid packet is captured as usual. *)
Theorem odd_length_pcm_is_truncated evs (w0 : W) payload d pcm next d' pcm' :
  let s := run_events evs (invited w0) in
  let s1 := dispatch (Emit_audioPacket payload) s in
  let s2 := dispatch (Emit_audioPacket next) s1 in
  decode (World.decoder (Invite.world s)) payload = (d, Some pcm) ->
  Nat.odd (View.byteLength pcm) = true ->
  Int16Array.construct (View.buffer pcm) (View.byteOffset pcm)
    (View.byteLength pcm) Int16Array.BYTES_PER_ELEMENT
  = (if Nat.even (View.byteOffset pcm)
     then Some (Int16Array.mk (View.buffer pcm) (View.byteOffset pcm)
                  (View.byteLength pcm / 2))
     else None)
  /\ 2 * (View.byteLength pcm / 2) + 1 = View.byteLength pcm
  /\ (Nat.even (View.byteOffset pcm) = true ->
      captureFrame_throws (World.source (Invite.world s))
        (inbound_frame 16000 1 pcm) = false ->
      World.source (Invite.world s1)
      = World.source (Invite.world s) ++ [inbound_frame 16000 1 pcm])
  /\ (Nat.even (View.byteOffset pcm) = false ->
      World.source (Invite.world s1) = World.source (Invite.world s)
      /\ World.console (Invite.world s1)
         = World.console (Invite.world s) ++ [ErrCaptureFrame]
      /\ (decode (World.decoder (Invite.world s1)) next = (d', Some pcm') ->
          Nat.even (View.byteOffset pcm') = true ->
          captureFrame_throws (World.source (Invite.world s))
            (inbound_frame 16000 1 pcm') = false ->
          World.source (Invite.world s2)
          = World.source (Invite.world s) ++ [inbound_frame 16000 1 pcm'])).
Proof.
  intros s s1 s2 D O.
  destruct (run_events_format evs (invited w0)) as [R Ch].
  fold s in R, Ch. cbn [invited Invite.sampleRate Invite.channels] in R, Ch.
  destruct (dispatch_format (Emit_audioPacket payload) s) as [R1 Ch1].
  fold s1 in R1, Ch1. rewrite R in R1. rewrite Ch in Ch1.
  split; [apply construct_on_view|]. split.
  { pose proof (Nat.div_mod_eq (View.byteLength pcm) 2) as Q.
    apply Nat.odd_spec in O. destruct O as [k O].
    assert (View.byteLength pcm mod 2 = 1) as M.
    { rewrite O, Nat.add_comm, Nat.mul_comm, Nat.Div0.mod_add. reflexivity. }
    lia. }
  split.
  - intros A C. destruct (valid_packet_captured payload s d pcm D A) as [S _].
    { now rewrite R, Ch. }
    fold s1 in S. now rewrite S, R, Ch.
  - intros A. destruct (throwing_packet_dropped payload s) as [S1 C1].
    { rewrite R, Ch, (inbound_throws_unfold _ _ _ _ _ _ D), A. reflexivity. }
    fold s1 in S1, C1. repeat split; try assumption.
    intros D' A' C'.
    destruct (valid_packet_captured next s1 d' pcm' D' A') as [S2 _].
    { now rewrite R1, Ch1, S1. }
    fold s2 in S2. now rewrite S2, S1, R1, Ch1.
Qed.

(** *** Invariants of an outbound invocation *)

(** A property of the running invocation that survives a pass of the
    inner loop, a line on the console and an assignment to the counters or
    to the buffers survives everything the stream can do; once the
    invocation has returned, what is left of it is a property of the
    shared objects. *)
Section Invariant.

Variable P : W -> Locals.t -> Prop.
Variable Q : W -> Prop.

Hypothesis P_send :
  forall w l, P w l -> loop_guard l = true ->
    P (fst (send_frame (w, l))) (snd (send_frame (w, l))).
Hypothesis P_log : forall w l e, P w l -> P (World.log e w) l.
Hypothesis P_counters :
  forall w l frames total, P w l -> P w (Locals.set_counters frames total l).
Hypothesis P_buffers :
  forall w l pcm temp, P w l -> P w (Locals.set_buffers pcm temp l).
Hypothesis P_Q : forall w l, P w l -> Q w.
Hypothesis Q_log : forall w e, Q w -> Q (World.log e w).

Lemma drain_invariant st : P (fst st) (snd st) -> P (fst (drain st)) (snd (drain st)).
Proof.
  funelim (drain st); intros I.
  - match goal with IH : _ -> P (fst (drain _)) _ |- _ => apply IH end.
    destruct st as [w l]. apply P_send; assumption.
  - assumption.
Qed.

Lemma on_frame_invariant audioFrame w l :
  P w l ->
  P (fst (snd (on_frame audioFrame (w, l)))) (snd (snd (on_frame audioFrame (w, l)))).
Proof.
  intros I. unfold on_frame.
  destruct (Locals.callEnded l); [apply P_log, I|].
  destruct audioFrame as [[[data|]]|]; try (apply P_log, I).
  unfold protect. cbn [Locals.pcmBuffer Locals.set_counters].
  destruct (MAX_BUFFER_SIZE <? _); apply drain_invariant; cbn [fst snd];
    unfold accumulate; destruct (_ || _); auto.
Qed.

Lemma cleanup_invariant w l : Q w -> Q (cleanup w l).
Proof.
  intros I. unfold cleanup. destruct global_gc as [[|]|]; auto.
Qed.

Definition phase_invariant (s : W * Phase) : Prop :=
  match snd s with
  | Running l => P (fst s) l
  | Terminated => Q (fst s)
  end.

Lemma resume_invariant r w l : P w l -> phase_invariant (resume r (w, l)).
Proof.
  intros I. unfold resume. destruct r as [audioFrame| |].
  - pose proof (on_frame_invariant audioFrame w l I) as I'.
    destruct (on_frame audioFrame (w, l)) as [[|] [w' l']]; cbn in I' |- *.
    + exact I'.
    + apply cleanup_invariant, (P_Q _ _ I').
  - apply cleanup_invariant, (P_Q _ _ I).
  - apply cleanup_invariant, Q_log, (P_Q _ _ I).
Qed.

Lemma feed_invariant rs s : phase_invariant s -> phase_invariant (feed rs s).
Proof.
  revert s. induction rs as [|r rs IH]; intros [w ph] I; [exact I|].
  cbn [feed snd fst]. destruct ph as [l|]; [|exact I].
  apply IH, resume_invariant, I.
Qed.

End Invariant.

(** *** RTP headers of the packets of one invocation *)

Lemma next_sequenceNumber_mod (a : Z) :
  next_sequenceNumber (a mod 65536) = ((a + 1) mod 65536)%Z.
Proof.
  unfold next_sequenceNumber.
  pose proof (Z.mod_pos_bound a 65536 ltac:(lia)) as B.
  rewrite <- (Zplus_mod_idemp_l a 1 65536).
  destruct (Z.ltb_spec 65535 (a mod 65536 + 1)) as [H|H].
  - replace (a mod 65536)%Z with 65535%Z by lia. reflexivity.
  - symmetry. apply Z.mod_small. lia.
Qed.

Lemma all_numbered_snoc seq0 ts0 new pkt :
  all_numbered seq0 ts0 new ->
  numbered seq0 ts0 (length new) pkt ->
  all_numbered seq0 ts0 (new ++ [pkt]).
Proof.
  intros A N k q E. destruct (Nat.lt_ge_cases k (length new)) as [L|G].
  - rewrite nth_error_app1 in E by assumption. exact (A k q E).
  - rewrite nth_error_app2 in E by assumption.
    destruct (k - length new) as [|j] eqn:J.
    + cbn in E. injection E as <-. replace k with (length new) by lia. exact N.
    + destruct j; discriminate E.
Qed.

(** The three outcomes of a pass of the inner loop: the encoder throws;
    the packet is sent; [sendPacket] throws on it. *)
Lemma send_frame_cases w l :
  let frame := buffer_copy (Locals.pcmBuffer l) (Locals.frameBuffer l) FRAME_SIZE in
  let rest := if length (Locals.pcmBuffer l) =? FRAME_SIZE then []
              else skipn FRAME_SIZE (Locals.pcmBuffer l) in
  let l1 := Locals.set_frame rest frame l in
  let l2 := Locals.set_rtp (Locals.timestamp l + codec_timestampInterval)%Z
              (next_sequenceNumber (Locals.sequenceNumber l)) l1 in
  (exists e, encode (World.encoder w) frame = (e, None)
     /\ send_frame (w, l)
        = (World.log ErrEncoding (World.encoded e frame w), l1))
  \/ (exists e encodedData, encode (World.encoder w) frame = (e, Some encodedData)
        /\ sendPacket_throws (World.sendPacket_calls w)
             (make_packet l encodedData) = false
        /\ send_frame (w, l)
           = (World.sendPacket (make_packet l encodedData)
                (World.encoded e frame w), l2))
  \/ (exists e encodedData, encode (World.encoder w) frame = (e, Some encodedData)
        /\ sendPacket_throws (World.sendPacket_calls w)
             (make_packet l encodedData) = true
        /\ send_frame (w, l)
           = (World.log ErrEncoding
                (World.sendPacket (make_packet l encodedData)
                   (World.encoded e frame w)), l2)).
Proof.
  intros frame rest l1 l2. subst frame rest l1 l2. unfold send_frame.
  destruct (encode (World.encoder w) _) as [e [encodedData|]].
  - destruct (sendPacket_throws _ _) eqn:T.
    + right. right. exists e, encodedData.
      split; [reflexivity | split; [exact T | reflexivity]].
    + right. left. exists e, encodedData.
      split; [reflexivity | split; [exact T | reflexivity]].
  - left. exists e. split; reflexivity.
Qed.

Section Headers.

Variables (ssrc0 : Z) (rc : nat) (base : list RtpPacket.t).

Definition headers_done (w : W) : Prop :=
  World.random_calls w = rc
  /\ exists new, World.sendPacket_calls w = base ++ new
               /\ Forall (header_ok ssrc0) new.

Definition headers_running (w : W) (l : Locals.t) : Prop :=
  Locals.ssrc l = ssrc0 /\ headers_done w.

Lemma headers_feed rs s :
  phase_invariant headers_running headers_done s ->
  phase_invariant headers_running headers_done (feed rs s).
Proof.
  apply feed_invariant; unfold headers_running, headers_done.
  - intros w l [S [R [new [E F]]]] _.
    destruct (send_frame_cases w l)
      as [[e [_ ->]]|[[e [d [_ [_ ->]]]]|[e [d [_ [_ ->]]]]]]; cbn;
      [ repeat split; try assumption; exists new; split; assumption | | ].
    all: repeat split; try assumption; exists (new ++ [make_packet l d]); split;
      [ rewrite E, app_assoc; reflexivity
      | apply Forall_app; split; [exact F|]; constructor; [|constructor];
        unfold header_ok; cbn; repeat split; exact S ].
  - intros w l e I. exact I.
  - intros w l frames total I. exact I.
  - intros w l pcm temp I. exact I.
  - intros w l [_ I]. exact I.
  - intros w e I. exact I.
Qed.

End Headers.

Section Numbering.

Variables (seq0 ts0 : Z) (base : list RtpPacket.t).

Definition numbering_done (w : W) : Prop :=
  exists new, World.sendPacket_calls w = base ++ new
              /\ all_numbered seq0 ts0 new.

Definition numbering_running (w : W) (l : Locals.t) : Prop :=
  exists new, World.sendPacket_calls w = base ++ new
    /\ all_numbered seq0 ts0 new
    /\ Locals.sequenceNumber l = ((seq0 + Z.of_nat (length new)) mod 65536)%Z
    /\ Locals.timestamp l
       = (ts0 + Z.of_nat (length new) * codec_timestampInterval)%Z.

Lemma numbering_feed rs s :
  phase_invariant numbering_running numbering_done s ->
  phase_invariant numbering_running numbering_done (feed rs s).
Proof.
  apply feed_invariant; unfold numbering_running, numbering_done.
  - intros w l [new [E [A [Sq Ts]]]] _.
    destruct (send_frame_cases w l)
      as [[e [_ ->]]|[[e [d [_ [_ ->]]]]|[e [d [_ [_ ->]]]]]]; cbn;
      [ exists new; split; [|split; [|split]]; assumption | | ].
    all: exists (new ++ [make_packet l d]); split; [|split; [|split]];
      [ rewrite E, app_assoc; reflexivity
      | apply all_numbered_snoc; [exact A|]; split; [exact Sq | exact Ts]
      | rewrite Sq, next_sequenceNumber_mod, length_app; cbn [length];
        f_equal; lia
      | rewrite Ts, length_app; cbn [length]; lia ].
  - intros w l e I. exact I.
  - intros w l frames total I. exact I.
  - intros w l pcm temp I. exact I.
  - intros w l [new [E [A _]]]. exists new. split; assumption.
  - intros w e I. exact I.
Qed.

End Numbering.

Lemma randomInt_range r :
  (0 <= r < RANDOM_RESOLUTION)%Z -> (1024 <= randomInt r <= 65535)%Z.
Proof.
  unfold randomInt, RANDOM_RESOLUTION.
  change (2 ^ 53)%Z with 9007199254740992%Z. intros B.
  assert (0 <= r * (65535 - 1024 + 1) / 9007199254740992 < 64512)%Z as D.
  { split; [apply Z.div_pos; lia | apply Z.div_lt_upper_bound; lia]. }
  lia.
Qed.

(** What the prologue leaves when it does not abort. *)
Lemma start_running callEnded now (w0 : W) :
  World.disposed w0 = false ->
  start true callEnded now w0
  = (World.drew_random w0,
     Running (Locals.mk callEnded
                (randomInt (Math_random (World.random_calls w0)))
                [] (repeat x00 FRAME_SIZE) [] 0 0 0
                (now / 1000)%Z (Z.rem (now / 1000) 65536))).
Proof. intros D. unfold start. rewrite D. reflexivity. Qed.

Lemma start_disposed callEnded now (w0 : W) :
  World.disposed w0 = true ->
  start true callEnded now w0 = (World.log ErrAlreadyDisposed w0, Terminated).
Proof. intros D. unfold start. rewrite D. reflexivity. Qed.

Lemma feed_terminated rs (w : W) : feed rs (w, Terminated) = (w, Terminated).
Proof. destruct rs; reflexivity. Qed.

(** C4.  The N-th packet an invocation hands to [sendPacket] carries the
    sequence number (initial + N - 1) mod 65536, which stays within
    0..65535 and is followed by 0 when it is 65535, and the timestamp
    initial + (N - 1) * codec.timestampInterval; the initial values are
    those of lines 127-128. *)
Theorem outbound_sequence_and_timestamp rs callEnded now (w0 : W) :
  (0 <= now)%Z ->
  let r := sendLivekitAudioStreamToCallSession (Some rs) callEnded now w0 in
  let ts0 := (now / 1000)%Z in
  let seq0 := Z.rem ts0 65536 in
  exists emitted,
    World.sendPacket_calls (fst r) = World.sendPacket_calls w0 ++ emitted
    /\ forall N pkt, 1 <= N -> nth_error emitted (N - 1) = Some pkt ->
       let seq := RtpHeader.sequenceNumber (RtpPacket.header pkt) in
       seq = ((seq0 + Z.of_nat N - 1) mod 65536)%Z
       /\ (0 <= seq <= 65535)%Z
       /\ RtpHeader.timestamp (RtpPacket.header pkt)
          = (ts0 + (Z.of_nat N - 1) * codec_timestampInterval)%Z
       /\ (forall next, nth_error emitted N = Some next -> seq = 65535%Z ->
           RtpHeader.sequenceNumber (RtpPacket.header next) = 0%Z).
Proof.
  intros Now r ts0 seq0.
  assert (exists emitted,
            World.sendPacket_calls (fst r) = World.sendPacket_calls w0 ++ emitted
            /\ all_numbered seq0 ts0 emitted) as [emitted [E A]].
  { subst r. unfold sendLivekitAudioStreamToCallSession.
    destruct (World.disposed w0) eqn:D.
    - rewrite (start_disposed _ _ _ D), feed_terminated. exists [].
      split; [cbn; now rewrite app_nil_r | intros [|k] pkt H; discriminate H].
    - rewrite (start_running _ _ _ D).
      match goal with |- context [feed rs ?s] =>
        pose proof (numbering_feed seq0 ts0 (World.sendPacket_calls w0) rs s) as I
      end.
      unfold phase_invariant at 1 in I. cbn [fst snd] in I.
      lapply I; clear I.
      + intros I. unfold phase_invariant in I.
        destruct (feed rs _) as [w ph]. cbn [fst snd] in I |- *.
        destruct ph as [l|].
        * destruct I as [new [E [A _]]]. exists new. split; assumption.
        * exact I.
      + exists []. cbn. split; [now rewrite app_nil_r|].
        split; [intros [|k] pkt H; discriminate H|]. split; [|fold ts0; lia].
        fold ts0. fold seq0. rewrite Z.add_0_r. symmetry. apply Z.mod_small.
        assert (0 <= ts0)%Z by (apply Z.div_pos; lia).
        subst seq0. split; [apply Z.rem_nonneg; lia|].
        apply Z.rem_bound_pos; lia. }
  exists emitted. split; [exact E|]. intros N pkt HN H seq.
  destruct (A _ _ H) as [Sq Ts]. fold seq in Sq.
  replace (Z.of_nat (N - 1)) with (Z.of_nat N - 1)%Z in Sq, Ts by lia.
  pose proof (Z.mod_pos_bound (seq0 + (Z.of_nat N - 1)) 65536 ltac:(lia)) as B.
  split; [rewrite Sq; f_equal; lia|]. split; [lia|]. split; [exact Ts|].
  intros next H' Last. destruct (A _ _ H') as [Sq' _]. rewrite Sq'.
  rewrite Sq in Last.
  replace (seq0 + Z.of_nat N)%Z with ((seq0 + (Z.of_nat N - 1)) + 1)%Z by lia.
  rewrite <- Zplus_mod_idemp_l, Last. reflexivity.
Qed.

(** C9.  One invocation draws its ssrc once: [Math.random] is called
    exactly once (not at all when the prologue aborts), the value lies in
    1024..65535, and every packet the invocation hands to [sendPacket]
    carries it, with version 2 and the padding and extension flags unset. *)
Theorem outbound_ssrc_constant rs callEnded now (w0 : W) :
  (0 <= Math_random (World.random_calls w0) < RANDOM_RESOLUTION)%Z ->
  let r := sendLivekitAudioStreamToCallSession (Some rs) callEnded now w0 in
  let ssrc := randomInt (Math_random (World.random_calls w0)) in
  (1024 <= ssrc <= 65535)%Z
  /\ World.random_calls (fst r)
     = (if World.disposed w0 then World.random_calls w0
        else S (World.random_calls w0))
  /\ exists emitted,
       World.sendPacket_calls (fst r) = World.sendPacket_calls w0 ++ emitted
       /\ Forall (fun pkt =>
                    let h := RtpPacket.header pkt in
                    RtpHeader.ssrc h = ssrc
                    /\ RtpHeader.version h = 2%Z
                    /\ RtpHeader.padding h = false
                    /\ RtpHeader.extension h = false) emitted.
Proof.
  intros B r ssrc. split; [exact (randomInt_range _ B)|].
  subst r. unfold sendLivekitAudioStreamToCallSession.
  destruct (World.disposed w0) eqn:D.
  - rewrite (start_disposed _ _ _ D), feed_terminated. cbn.
    split; [reflexivity|]. exists []. split; [now rewrite app_nil_r|constructor].
  - rewrite (start_running _ _ _ D).
    match goal with |- context [feed rs ?s] =>
      pose proof (headers_feed ssrc (S (World.random_calls w0))
                    (World.sendPacket_calls w0) rs s) as I
    end.
    unfold phase_invariant at 1 in I. cbn [fst snd] in I.
    assert (headers_done ssrc (S (World.random_calls w0))
              (World.sendPacket_calls w0) (fst (feed rs
                 (World.drew_random w0,
                  Running (Locals.mk callEnded ssrc [] (repeat x00 FRAME_SIZE)
                             [] 0 0 0 (now / 1000)%Z
                             (Z.rem (now / 1000) 65536)))))) as [R [new [E F]]].
    { lapply I.
      - clear I. intros I. unfold phase_invariant in I.
        destruct (feed rs _) as [w [l|]]; cbn [fst snd] in I |- *;
          [exact (proj2 I) | exact I].
      - split; [reflexivity|]. split; [reflexivity|].
        exists []. cbn. split; [now rewrite app_nil_r | constructor]. }
    split; [exact R|]. exists new. split; [exact E|].
    revert F. apply Forall_impl. intros pkt [H1 [H2 [H3 [H4 _]]]].
    cbn. repeat split; assumption.
Qed.

(** *** The inner loop *)

Lemma drain_step st :
  drain st = if loop_guard (snd st) then drain (send_frame st) else st.
Proof.
  funelim (drain st);
    match goal with G : loop_guard _ = _ |- _ => rewrite G end; reflexivity.
Qed.

Lemma guard_full l : loop_guard l = true -> FRAME_SIZE <= length (Locals.pcmBuffer l).
Proof.
  unfold loop_guard. intros G. apply andb_prop in G as [G _].
  now apply Nat.leb_le.
Qed.

(** With a whole frame available the scratch buffer receives exactly the
    first [FRAME_SIZE] bytes, and [pcmBuffer] keeps all the others. *)
Lemma slice_frame l :
  loop_guard l = true ->
  length (Locals.frameBuffer l) = FRAME_SIZE ->
  buffer_copy (Locals.pcmBuffer l) (Locals.frameBuffer l) FRAME_SIZE
  = firstn FRAME_SIZE (Locals.pcmBuffer l).
Proof.
  intros G F. apply guard_full in G. unfold buffer_copy.
  rewrite F, (Nat.min_l _ _ G), Nat.min_id, skipn_all2, app_nil_r by lia.
  reflexivity.
Qed.

Lemma slice_rest (pcm : bytes) :
  (if length pcm =? FRAME_SIZE then [] else skipn FRAME_SIZE pcm)
  = skipn FRAME_SIZE pcm.
Proof.
  destruct (Nat.eqb_spec (length pcm) FRAME_SIZE) as [E|_]; [|reflexivity].
  symmetry. apply skipn_all2. lia.
Qed.


(** *** Conservation of the PCM bytes *)

Lemma overflows_app a b : overflows (a ++ b) = overflows a + overflows b.
Proof. unfold overflows. now rewrite filter_app, length_app. Qed.

Lemma sum_lengths_concat chunks init :
  sum_lengths chunks init = init + length (concat chunks).
Proof.
  revert init. unfold sum_lengths.
  induction chunks as [|c chunks IH]; intros init; cbn [fold_left concat].
  - cbn. lia.
  - rewrite IH, length_app. lia.
Qed.

(** What one run of the inner loop does to a state whose call has not
    ended: it cuts whole frames off the front of [pcmBuffer] until less
    than a frame is left, and hands each of them to the encoder. *)
Lemma drain_conserves st :
  Locals.callEnded (snd st) = false ->
  length (Locals.frameBuffer (snd st)) = FRAME_SIZE ->
  exists frames,
    World.encode_calls (fst (drain st)) = World.encode_calls (fst st) ++ frames
    /\ Forall (fun f => length f = FRAME_SIZE) frames
    /\ Locals.pcmBuffer (snd st)
       = concat frames ++ Locals.pcmBuffer (snd (drain st))
    /\ length (Locals.pcmBuffer (snd (drain st))) < FRAME_SIZE
    /\ Locals.tempBuffer (snd (drain st)) = Locals.tempBuffer (snd st)
    /\ Locals.callEnded (snd (drain st)) = false
    /\ length (Locals.frameBuffer (snd (drain st))) = FRAME_SIZE
    /\ overflows (World.console (fst (drain st)))
       = overflows (World.console (fst st)).
Proof.
  funelim (drain st); intros C F.
  - destruct st as [w l]. cbn [fst snd] in *.
    pose proof (guard_full l G) as Full.
    assert (World.encode_calls (fst (send_frame (w, l)))
            = World.encode_calls w ++ [firstn FRAME_SIZE (Locals.pcmBuffer l)]
            /\ Locals.pcmBuffer (snd (send_frame (w, l)))
               = skipn FRAME_SIZE (Locals.pcmBuffer l)
            /\ Locals.frameBuffer (snd (send_frame (w, l)))
               = firstn FRAME_SIZE (Locals.pcmBuffer l)
            /\ Locals.tempBuffer (snd (send_frame (w, l))) = Locals.tempBuffer l
            /\ Locals.callEnded (snd (send_frame (w, l))) = Locals.callEnded l
            /\ overflows (World.console (fst (send_frame (w, l))))
               = overflows (World.console w))
      as [E1 [P1 [F1 [T1 [C1 O1]]]]].
    { destruct (send_frame_cases w l)
        as [[e [_ ->]]|[[e [d [_ [_ ->]]]]|[e [d [_ [_ ->]]]]]];
        rewrite (slice_frame l G F), slice_rest; cbn;
        rewrite ?overflows_app; repeat split; try reflexivity;
        unfold overflows; cbn; lia. }
    match goal with IH : _ -> _ -> ex _ |- _ =>
      destruct IH as [frames [E [A [P [L [T [C' [F' O]]]]]]]]
    end.
    { now rewrite C1. }
    { rewrite F1, length_firstn. lia. }
    exists (firstn FRAME_SIZE (Locals.pcmBuffer l) :: frames).
    split; [rewrite E, E1, <- app_assoc; reflexivity|].
    split; [constructor; [rewrite length_firstn; lia | exact A]|].
    split.
    { cbn [concat]. rewrite <- app_assoc, <- P, P1. symmetry.
      apply firstn_skipn. }
    split; [exact L|]. split; [now rewrite T, T1|]. split; [exact C'|].
    split; [exact F'|]. now rewrite O, O1.
  - exists []. cbn [concat app]. rewrite app_nil_r.
    repeat split; try assumption || reflexivity; [constructor|].
    match goal with G : loop_guard _ = false |- _ => pose proof G as G' end.
    unfold loop_guard in G'. apply andb_false_iff in G' as [G'|G'].
    + now apply Nat.leb_gt in G'.
    + rewrite C in G'. discriminate G'.
Qed.

(** The console never loses a line: the count of overflow lines can only
    grow while the stream is consumed. *)
Lemma overflows_feed n rs s :
  n <= overflows (World.console (fst s)) ->
  n <= overflows (World.console (fst (feed rs s))).
Proof.
  intros I.
  pose proof (feed_invariant
                (fun w _ => n <= overflows (World.console w))
                (fun w => n <= overflows (World.console w))) as K.
  unfold phase_invariant in K.
  assert (forall t : W * Phase,
             match snd t with
             | Running _ | Terminated => n <= overflows (World.console (fst t))
             end <-> n <= overflows (World.console (fst t))) as Eq
    by (intros [w [l|]]; reflexivity).
  apply Eq, K; [| | | | | |apply Eq, I].
  - intros w l J _.
    destruct (send_frame_cases w l)
      as [[e [_ ->]]|[[e [d [_ [_ ->]]]]|[e [d [_ [_ ->]]]]]]; cbn;
      rewrite ?overflows_app; lia.
  - intros w l e J. cbn. rewrite overflows_app. lia.
  - intros w l frames total J. exact J.
  - intros w l pcm temp J. exact J.
  - intros w l J. exact J.
  - intros w e J. cbn. rewrite overflows_app. lia.
Qed.

(** [accumulate] appends the chunk to what is held, and leaves chunks
    pending only while less than a frame is held. *)
Lemma accumulate_spec chunk l :
  Locals.callEnded (accumulate chunk l) = Locals.callEnded l
  /\ Locals.frameBuffer (accumulate chunk l) = Locals.frameBuffer l
  /\ buffered (accumulate chunk l) = buffered l ++ chunk
  /\ (Locals.tempBuffer (accumulate chunk l) = []
      \/ length (buffered (accumulate chunk l)) < FRAME_SIZE).
Proof.
  unfold accumulate, buffered.
  destruct (_ || _) eqn:Cat;
    cbn [Locals.set_buffers Locals.callEnded Locals.frameBuffer
         Locals.pcmBuffer Locals.tempBuffer].
  - repeat split; [|left; reflexivity].
    cbn [concat]. rewrite concat_app. cbn [concat].
    now rewrite !app_nil_r, app_assoc.
  - repeat split; [|right].
    { rewrite concat_app. cbn [concat]. now rewrite !app_nil_r, app_assoc. }
    apply orb_false_iff in Cat as [_ Cat]. apply Nat.leb_gt in Cat.
    rewrite sum_lengths_concat in Cat. now rewrite length_app.
Qed.

(** One valid frame, seen between two suspensions of a call that has not
    ended.  Either the memory protection fires, and the console tells, or
    every byte held before and every byte of the chunk is afterwards in
    a frame handed to the encoder or still held; less than a frame is
    held at the next suspension. *)
Lemma valid_frame_conserves chunk (w : W) l :
  Locals.callEnded l = false ->
  length (Locals.frameBuffer l) = FRAME_SIZE ->
  exists w' l',
    resume (valid_frame chunk) (w, l) = (w', Running l')
    /\ Locals.callEnded l' = false
    /\ length (Locals.frameBuffer l') = FRAME_SIZE
    /\ length (buffered l') < FRAME_SIZE
    /\ if MAX_BUFFER_SIZE <? length (Locals.pcmBuffer l) + length chunk
       then overflows (World.console w') = S (overflows (World.console w))
       else overflows (World.console w') = overflows (World.console w)
            /\ exists frames,
                 World.encode_calls w' = World.encode_calls w ++ frames
                 /\ Forall (fun f => length f = FRAME_SIZE) frames
                 /\ buffered l ++ chunk = concat frames ++ buffered l'.
Proof.
  intros C F. unfold resume, valid_frame, on_frame. rewrite C.
  unfold protect. cbn [Locals.pcmBuffer Locals.set_counters].
  set (l1 := Locals.set_counters _ _ l).
  assert (forall (w2 : W) l2,
             Locals.callEnded l2 = false ->
             length (Locals.frameBuffer l2) = FRAME_SIZE ->
             exists w' l' frames,
               drain (w2, accumulate chunk l2) = (w', l')
               /\ Locals.callEnded l' = false
               /\ length (Locals.frameBuffer l') = FRAME_SIZE
               /\ length (buffered l') < FRAME_SIZE
               /\ overflows (World.console w') = overflows (World.console w2)
               /\ World.encode_calls w' = World.encode_calls w2 ++ frames
               /\ Forall (fun f => length f = FRAME_SIZE) frames
               /\ buffered l2 ++ chunk = concat frames ++ buffered l') as Step.
  { intros w2 l2 C2 F2.
    destruct (accumulate_spec chunk l2) as [Ca [Fa [Ba Pa]]].
    destruct (drain_conserves (w2, accumulate chunk l2))
      as [frames [E [A [P [L [T [C' [F' O]]]]]]]];
      [cbn [snd]; congruence | cbn [snd]; congruence |].
    destruct (drain (w2, accumulate chunk l2)) as [w' l']. cbn [fst snd] in *.
    exists w', l', frames. repeat split; try assumption.
    - unfold buffered in *. rewrite T.
      apply (f_equal (@length _)) in P. rewrite !length_app in *.
      destruct Pa as [Pa|Pa]; [rewrite Pa; cbn; lia | lia].
    - rewrite <- Ba. unfold buffered. now rewrite T, P, app_assoc. }
  destruct (MAX_BUFFER_SIZE <? length (Locals.pcmBuffer l) + length chunk).
  - destruct (Step (World.log (LogOverflow (length (Locals.pcmBuffer l))) w)
                (Locals.set_buffers [] [] l1) C F)
      as [w' [l' [frames [D [C' [F' [L [O _]]]]]]]].
    rewrite D. exists w', l'. repeat split; try assumption.
    rewrite O. cbn. rewrite overflows_app. unfold overflows. cbn. lia.
  - destruct (Step w l1 C F) as [w' [l' [frames [D [C' [F' [L [O [E [A B]]]]]]]]]].
    rewrite D. exists w', l'. repeat split; try assumption.
    exists frames. repeat split; assumption.
Qed.

Lemma feed_app rs1 rs2 s : feed (rs1 ++ rs2) s = feed rs2 (feed rs1 s).
Proof.
  revert s. induction rs1 as [|r rs1 IH]; intros [w ph]; [reflexivity|].
  cbn [app feed snd fst]. destruct ph as [l|]; [apply IH|].
  now rewrite feed_terminated.
Qed.

(** The [finally] block writes on the console only, and no overflow line. *)
Lemma cleanup_spec (w : W) l :
  World.encode_calls (cleanup w l) = World.encode_calls w
  /\ World.sendPacket_calls (cleanup w l) = World.sendPacket_calls w
  /\ overflows (World.console (cleanup w l)) = overflows (World.console w).
Proof.
  unfold cleanup. destruct global_gc as [[|]|]; cbn;
    rewrite ?overflows_app; unfold overflows; cbn; repeat split; lia.
Qed.

Lemma concat_frames_length (frames : list bytes) n :
  Forall (fun f => length f = n) frames ->
  length (concat frames) = n * length frames.
Proof.
  induction 1 as [|f frames E _ IH]; cbn [concat length]; [lia|].
  rewrite length_app, IH, E. lia.
Qed.

(** A stream of valid frames during which the memory protection never
    fires: every byte received is afterwards in a frame handed to the
    encoder, in order, or still held, and less than a frame is held. *)
Lemma feed_conserves chunks :
  forall (w : W) l,
    Locals.callEnded l = false ->
    length (Locals.frameBuffer l) = FRAME_SIZE ->
    length (buffered l) < FRAME_SIZE ->
    overflows (World.console (fst (feed (map valid_frame chunks) (w, Running l))))
    = overflows (World.console w) ->
    exists w' l' frames,
      feed (map valid_frame chunks) (w, Running l) = (w', Running l')
      /\ World.encode_calls w' = World.encode_calls w ++ frames
      /\ Forall (fun f => length f = FRAME_SIZE) frames
      /\ buffered l ++ concat chunks = concat frames ++ buffered l'
      /\ length (buffered l') < FRAME_SIZE.
Proof.
  induction chunks as [|chunk chunks IH]; intros w l C F L O.
  - exists w, l, []. cbn. rewrite !app_nil_r. repeat split; try assumption.
    constructor.
  - cbn [map feed fst snd] in O |- *.
    destruct (valid_frame_conserves chunk w l C F)
      as [w1 [l1 [R [C1 [F1 [L1 Trip]]]]]].
    rewrite R in O |- *.
    pose proof (overflows_feed (overflows (World.console w1))
                  (map valid_frame chunks) (w1, Running l1) (le_n _)) as M.
    destruct (MAX_BUFFER_SIZE <? _); [lia|].
    destruct Trip as [O1 [frames1 [E1 [A1 B1]]]].
    destruct (IH w1 l1 C1 F1 L1) as [w' [l' [frames [D [E [A [B L']]]]]]];
      [lia|].
    exists w', l', (frames1 ++ frames). split; [exact D|].
    split; [now rewrite E, E1, app_assoc|].
    split; [apply Forall_app; split; assumption|]. split; [|exact L'].
    cbn [concat]. rewrite app_assoc, B1, <- app_assoc, B, concat_app, app_assoc.
    reflexivity.
Qed.

(** C3.  An invocation on a call that has not ended, fed valid frames
    only (and then, possibly, the end of the stream), during which the
    memory protection never fires: the frames handed to the encoder are
    640 bytes each, together they are the bytes received, in order, up to
    the last multiple of 640 (their total is the bytes received minus
    received mod 640), and every pass of the inner loop takes exactly 640
    bytes off the accumulation buffer. *)
Theorem encoded_bytes_conservation chunks (ended : bool) now (w0 : W) :
  World.disposed w0 = false ->
  let rs := map valid_frame chunks ++ (if ended then [Done] else []) in
  let r := sendLivekitAudioStreamToCallSession (Some rs) false now w0 in
  let received := length (concat chunks) in
  overflows (World.console (fst r)) = overflows (World.console w0) ->
  (exists frames,
      World.encode_calls (fst r) = World.encode_calls w0 ++ frames
      /\ Forall (fun f => length f = 640) frames
      /\ length (concat frames) = received - received mod 640
      /\ concat frames = firstn (received - received mod 640) (concat chunks))
  /\ (forall st : State,
        loop_guard (snd st) = true ->
        length (Locals.pcmBuffer (snd (send_frame st))) + 640
        = length (Locals.pcmBuffer (snd st))).
Proof.
  intros D rs r received O. split.
  2:{ intros st G. rewrite <- FRAME_SIZE_value. apply send_frame_shrinks, G. }
  subst r rs. unfold sendLivekitAudioStreamToCallSession in *.
  rewrite (start_running _ _ _ D), feed_app in *.
  match goal with |- context [Running ?l] => set (l0 := l) in * end.
  set (s := feed (map valid_frame chunks) (World.drew_random w0, Running l0)) in *.
  assert (overflows (World.console (fst s))
          = overflows (World.console (World.drew_random w0))) as O'.
  { pose proof (overflows_feed (overflows (World.console w0))
                  (map valid_frame chunks)
                  (World.drew_random w0, Running l0) (le_n _)) as M.
    fold s in M. cbn [World.drew_random World.console].
    destruct ended; [|cbn [feed] in O; lia].
    destruct s as [w [l|]]; cbn [feed fst snd resume] in O, M |- *; [|lia].
    destruct (cleanup_spec w l) as [_ [_ Oc]]. lia. }
  destruct (feed_conserves chunks (World.drew_random w0) l0)
    as [w' [l' [frames [R [E [A [B L]]]]]]].
  { reflexivity. }
  { subst l0. cbn [Locals.frameBuffer]. apply repeat_length. }
  { subst l0. cbn. rewrite FRAME_SIZE_value. lia. }
  { exact O'. }
  fold s in R. rewrite R.
  assert (World.encode_calls
            (fst (feed (if ended then [Done] else []) (w', Running l')))
          = World.encode_calls w0 ++ frames) as E'.
  { destruct ended; cbn [feed fst snd resume]; [|exact E].
    destruct (cleanup_spec w' l') as [Ec _]. now rewrite Ec. }
  exists frames. split; [exact E'|]. rewrite FRAME_SIZE_value in A, L.
  split; [exact A|].
  unfold buffered at 1 in B. subst l0. cbn [Locals.pcmBuffer Locals.tempBuffer
                                             concat app] in B.
  pose proof (concat_frames_length frames 640 A) as Len.
  assert (received mod 640 = length (buffered l')) as Mod.
  { subst received. rewrite B, length_app, Len.
    rewrite Nat.add_comm, Nat.mul_comm, Nat.Div0.mod_add.
    now apply Nat.mod_small. }
  assert (received - received mod 640 = length (concat frames)) as Cut.
  { rewrite Mod. subst received. rewrite B, length_app. lia. }
  split; [now rewrite Cut|].
  rewrite Cut, B, firstn_app, Nat.sub_diag, firstn_O, app_nil_r, firstn_all.
  reflexivity.
Qed.

(** *** Stepping through a stream by hand *)

Lemma accumulate_pending chunk l :
  length (Locals.tempBuffer l) < 3 ->
  length (buffered l) + length chunk < FRAME_SIZE ->
  accumulate chunk l
  = Locals.set_buffers (Locals.pcmBuffer l) (Locals.tempBuffer l ++ [chunk]) l.
Proof.
  intros T B. unfold accumulate. unfold buffered in B.
  rewrite length_app in B.
  rewrite sum_lengths_concat, concat_app, !length_app. cbn [concat length].
  rewrite app_nil_r.
  destruct (Nat.ltb_spec 3 (length (Locals.tempBuffer l) + 1)); [lia|].
  destruct (Nat.leb_spec FRAME_SIZE
              (length (Locals.pcmBuffer l)
               + (length (concat (Locals.tempBuffer l)) + length chunk)));
    [lia|reflexivity].
Qed.

Lemma accumulate_merge chunk l :
  FRAME_SIZE <= length (buffered l) + length chunk ->
  accumulate chunk l = Locals.set_buffers (buffered l ++ chunk) [] l.
Proof.
  intros B. unfold accumulate. unfold buffered in B |- *.
  rewrite length_app in B.
  rewrite sum_lengths_concat. cbn [concat]. rewrite !concat_app, !length_app.
  cbn [concat length]. rewrite !app_nil_r.
  destruct (Nat.leb_spec FRAME_SIZE
              (length (Locals.pcmBuffer l)
               + (length (concat (Locals.tempBuffer l)) + length chunk)));
    [|lia].
  now rewrite orb_true_r, app_assoc.
Qed.

(** A valid frame that does not trip the protection, on a call that has
    not ended. *)
Lemma resume_valid chunk (w : W) l :
  Locals.callEnded l = false ->
  length (Locals.pcmBuffer l) + length chunk <= MAX_BUFFER_SIZE ->
  resume (valid_frame chunk) (w, l)
  = (fst (drain (w, accumulate chunk
                      (Locals.set_counters (S (Locals.frameCount l))
                         (Locals.totalBytesProcessed l + length chunk) l))),
     Running (snd (drain (w, accumulate chunk
                      (Locals.set_counters (S (Locals.frameCount l))
                         (Locals.totalBytesProcessed l + length chunk) l))))).
Proof.
  intros C M. unfold resume, valid_frame, on_frame, protect. rewrite C.
  cbn [Locals.pcmBuffer Locals.set_counters].
  destruct (Nat.ltb_spec MAX_BUFFER_SIZE
              (length (Locals.pcmBuffer l) + length chunk)); [lia|].
  now destruct (drain _).
Qed.

(** The inner loop has nothing to do on less than a frame. *)
Lemma drain_idle (w : W) l :
  length (Locals.pcmBuffer l) < FRAME_SIZE -> drain (w, l) = (w, l).
Proof.
  intros L. rewrite drain_step. unfold loop_guard. cbn [snd].
  destruct (Nat.leb_spec FRAME_SIZE (length (Locals.pcmBuffer l))); [lia|].
  reflexivity.
Qed.

(** When less than two frames are held the inner loop makes one pass. *)
Lemma drain_once (w : W) l :
  Locals.callEnded l = false ->
  FRAME_SIZE <= length (Locals.pcmBuffer l) < 2 * FRAME_SIZE ->
  drain (w, l) = send_frame (w, l).
Proof.
  intros C [Lo Hi].
  assert (loop_guard l = true) as G.
  { unfold loop_guard. rewrite C. apply andb_true_iff. split; [|reflexivity].
    now apply Nat.leb_le. }
  rewrite drain_step. cbn [snd]. rewrite G, drain_step.
  pose proof (send_frame_shrinks (w, l) G) as Sh. cbn [snd] in Sh.
  unfold loop_guard.
  destruct (Nat.leb_spec FRAME_SIZE
              (length (Locals.pcmBuffer (snd (send_frame (w, l)))))); [lia|].
  reflexivity.
Qed.

Lemma feed_cons r rs (w : W) l :
  feed (r :: rs) (w, Running l) = feed rs (resume r (w, l)).
Proof. reflexivity. Qed.

(** A chunk that neither trips the protection nor completes a frame nor
    makes a fourth pending entry just waits in the pending list. *)
Lemma resume_pending chunk (w : W) l :
  Locals.callEnded l = false ->
  length (Locals.pcmBuffer l) + length chunk <= MAX_BUFFER_SIZE ->
  length (Locals.tempBuffer l) < 3 ->
  length (buffered l) + length chunk < FRAME_SIZE ->
  resume (valid_frame chunk) (w, l)
  = (w, Running (Locals.set_buffers (Locals.pcmBuffer l)
                   (Locals.tempBuffer l ++ [chunk])
                   (Locals.set_counters (S (Locals.frameCount l))
                      (Locals.totalBytesProcessed l + length chunk) l))).
Proof.
  intros C M T B. rewrite (resume_valid _ _ _ C M).
  rewrite accumulate_pending by assumption.
  rewrite drain_idle; [reflexivity|].
  unfold buffered in B. rewrite length_app in B.
  cbn [Locals.set_buffers Locals.set_counters Locals.pcmBuffer]. lia.
Qed.

(** A chunk that completes exactly one frame, which the encoder accepts:
    the frame is cut off the front of everything held, encoded and handed
    to [sendPacket]; the rest stays in the accumulation buffer. *)
Lemma resume_one_frame chunk (w : W) l e encodedData :
  Locals.callEnded l = false ->
  length (Locals.frameBuffer l) = FRAME_SIZE ->
  length (Locals.pcmBuffer l) + length chunk <= MAX_BUFFER_SIZE ->
  FRAME_SIZE <= length (buffered l) + length chunk < 2 * FRAME_SIZE ->
  encode (World.encoder w) (firstn FRAME_SIZE (buffered l ++ chunk))
  = (e, Some encodedData) ->
  exists w' l',
    resume (valid_frame chunk) (w, l) = (w', Running l')
    /\ Locals.callEnded l' = false
    /\ Locals.pcmBuffer l' = skipn FRAME_SIZE (buffered l ++ chunk)
    /\ Locals.tempBuffer l' = []
    /\ World.encode_calls w'
       = World.encode_calls w ++ [firstn FRAME_SIZE (buffered l ++ chunk)]
    /\ World.sendPacket_calls w'
       = World.sendPacket_calls w ++ [make_packet l encodedData].
Proof.
  intros C F M [Lo Hi] E. rewrite (resume_valid _ _ _ C M).
  rewrite accumulate_merge by exact Lo.
  change (buffered (Locals.set_counters (S (Locals.frameCount l))
            (Locals.totalBytesProcessed l + length chunk) l))
    with (buffered l).
  set (l1 := Locals.set_buffers _ _ _).
  assert (length (Locals.pcmBuffer l1) = length (buffered l) + length chunk)
    as Len by (subst l1; cbn; now rewrite length_app).
  assert (loop_guard l1 = true) as G.
  { unfold loop_guard. apply andb_true_iff. split.
    - apply Nat.leb_le. lia.
    - subst l1. cbn. now rewrite C. }
  rewrite drain_once by first [exact C | lia].
  destruct (send_frame_cases w l1)
    as [[e' [E' _]]|[[e' [d [E' [_ ->]]]]|[e' [d [E' [_ ->]]]]]];
    rewrite (slice_frame l1 G F) in E'; subst l1;
    cbn [Locals.set_buffers Locals.pcmBuffer] in E'; rewrite E in E';
    [discriminate E'| |].
  all: injection E' as <- <-; eexists _, _; split; [reflexivity|];
    rewrite slice_frame by (exact G || exact F); rewrite slice_rest;
    cbn; repeat split; exact C.
Qed.

(** C6, as amended.  Three valid frames of 400, 400 and 200 bytes, on a
    call that has not ended and with an encoder that accepts the frame:
    exactly one 640-byte frame (the first 640 bytes received) is encoded
    and handed to [sendPacket]; of the 360 bytes retained, 160 are in the
    accumulation buffer and the 200 of the third frame wait in the pending
    list. *)
Theorem three_frames_one_packet c1 c2 c3 now (w0 : W) e encodedData :
  length c1 = 400 -> length c2 = 400 -> length c3 = 200 ->
  World.disposed w0 = false ->
  encode (World.encoder w0) (firstn 640 (c1 ++ c2)) = (e, Some encodedData) ->
  let r := sendLivekitAudioStreamToCallSession
             (Some [valid_frame c1; valid_frame c2; valid_frame c3])
             false now w0 in
  exists l pkt,
    snd r = Running l
    /\ World.encode_calls (fst r)
       = World.encode_calls w0 ++ [firstn 640 (c1 ++ c2)]
    /\ length (firstn 640 (c1 ++ c2)) = 640
    /\ World.sendPacket_calls (fst r) = World.sendPacket_calls w0 ++ [pkt]
    /\ RtpPacket.payload pkt = encodedData
    /\ Locals.pcmBuffer l = skipn 640 (c1 ++ c2)
    /\ length (Locals.pcmBuffer l) = 160
    /\ Locals.tempBuffer l = [c3]
    /\ length (buffered l) = 360.
Proof.
  intros L1 L2 L3 D E r. subst r.
  unfold sendLivekitAudioStreamToCallSession.
  rewrite (start_running _ _ _ D).
  pose proof FRAME_SIZE_value as FS. pose proof MAX_BUFFER_SIZE_value as MX.
  match goal with |- context [Running ?l] => set (l0 := l) end.
  rewrite feed_cons, resume_pending
    by (subst l0; unfold buffered; cbn; reflexivity || lia).
  set (l1 := Locals.set_buffers _ _ _).
  assert (buffered l1 = c1) as B1
    by (subst l1 l0; unfold buffered; cbn; now rewrite app_nil_r).
  destruct (resume_one_frame c2 (World.drew_random w0) l1 e encodedData)
    as [w2 [l2 [R2 [C2 [P2 [T2 [E2 S2]]]]]]].
  { reflexivity. }
  { subst l1 l0. cbn. apply repeat_length. }
  { subst l1 l0. cbn. lia. }
  { rewrite B1. lia. }
  { rewrite B1, FS. exact E. }
  rewrite feed_cons, R2. rewrite B1 in P2, E2. rewrite FS in P2, E2.
  assert (length (Locals.pcmBuffer l2) = 160) as Len
    by (rewrite P2, length_skipn, length_app; lia).
  rewrite feed_cons, resume_pending
    by (unfold buffered; rewrite ?T2, ?length_app; cbn; lia || exact C2).
  cbn [feed fst snd]. eexists _, (make_packet l1 encodedData).
  split; [reflexivity|]. cbn [Locals.set_buffers Locals.set_counters
                              Locals.pcmBuffer Locals.tempBuffer].
  split; [exact E2|]. split; [rewrite length_firstn, length_app; lia|].
  split; [exact S2|]. split; [reflexivity|]. split; [exact P2|].
  split; [exact Len|]. split; [now rewrite T2|].
  unfold buffered. cbn [Locals.set_buffers Locals.set_counters
                        Locals.pcmBuffer Locals.tempBuffer].
  rewrite T2, length_app. cbn. rewrite app_nil_r. lia.
Qed.

(** *** What an invocation never changes *)

Lemma buffer_copy_length source target sourceEnd :
  length (buffer_copy source target sourceEnd) = length target.
Proof.
  unfold buffer_copy. rewrite length_app, length_firstn, length_skipn. lia.
Qed.

(** The parameter [callEnded] keeps the value it was called with, and the
    scratch buffer its size, for as long as the invocation runs. *)
Lemma parameters_feed (ended : bool) rs s :
  phase_invariant
    (fun _ l => Locals.callEnded l = ended
                /\ length (Locals.frameBuffer l) = FRAME_SIZE)
    (fun _ => True) s ->
  phase_invariant
    (fun _ l => Locals.callEnded l = ended
                /\ length (Locals.frameBuffer l) = FRAME_SIZE)
    (fun _ => True) (feed rs s).
Proof.
  apply feed_invariant; try tauto.
  intros w l [C F] _.
  destruct (send_frame_cases w l)
    as [[e [_ ->]]|[[e [d [_ [_ ->]]]]|[e [d [_ [_ ->]]]]]];
    cbn; rewrite buffer_copy_length; split; assumption.
Qed.

(** The events of the call session reach the variable of
    [inviteUserToRoom] only: the invocations already started are left as
    they are. *)
Lemma lifecycle_leaves_streams ev (s : Closure) :
  match ev with
  | Emit_answered | Emit_busy | Emit_disposed | Emit_audioPacket _ =>
    Invite.streams (dispatch ev s) = Invite.streams s
  | _ => True
  end.
Proof.
  destruct s as [w rate chans ended a b d calls streams].
  destruct ev; cbn [dispatch]; try exact I;
    [destruct a | destruct b | destruct d | ]; reflexivity.
Qed.

(** ** Further properties of the two pipelines *)

(** *** Invariants that depend on what is written on the console *)

(** The lines the body of the [for await] writes outside the inner loop,
    and those written on the way out. *)
Definition frame_line (e : Log) : bool :=
  match e with
  | LogCallEnded | LogInvalidFrame | LogOverflow _ => true
  | _ => false
  end.

Definition exit_line (e : Log) : bool :=
  match e with
  | ErrStream | LogGC | LogGCFailed | LogCompleted _ _ _ | LogFinished => true
  | _ => false
  end.

Definition is_encoding_error (e : Log) : bool :=
  match e with ErrEncoding => true | _ => false end.

Definition is_capture_error (e : Log) : bool :=
  match e with ErrCaptureFrame => true | _ => false end.

Section Invariant_lines.

Variable P : W -> Locals.t -> Prop.
Variable Q : W -> Prop.

Hypothesis P_send :
  forall w l, P w l -> loop_guard l = true ->
    P (fst (send_frame (w, l))) (snd (send_frame (w, l))).
Hypothesis P_log :
  forall w l e, frame_line e = true -> P w l -> P (World.log e w) l.
Hypothesis P_counters :
  forall w l frames total, P w l -> P w (Locals.set_counters frames total l).
Hypothesis P_buffers :
  forall w l pcm temp, P w l -> P w (Locals.set_buffers pcm temp l).
Hypothesis P_Q : forall w l, P w l -> Q w.
Hypothesis Q_log : forall w e, exit_line e = true -> Q w -> Q (World.log e w).

Lemma on_frame_lines audioFrame w l :
  P w l ->
  P (fst (snd (on_frame audioFrame (w, l)))) (snd (snd (on_frame audioFrame (w, l)))).
Proof.
  intros I. unfold on_frame.
  destruct (Locals.callEnded l); [now apply P_log|].
  destruct audioFrame as [[[data|]]|]; try (now apply P_log).
  unfold protect. cbn [Locals.pcmBuffer Locals.set_counters].
  destruct (MAX_BUFFER_SIZE <? _); apply (drain_invariant P P_send);
    cbn [fst snd]; unfold accumulate; destruct (_ || _); auto.
Qed.

Lemma cleanup_lines w l : Q w -> Q (cleanup w l).
Proof.
  intros I. unfold cleanup. destruct global_gc as [[|]|]; auto.
Qed.

Lemma resume_lines r w l :
  P w l -> phase_invariant P Q (resume r (w, l)).
Proof.
  intros I. unfold resume. destruct r as [audioFrame| |].
  - pose proof (on_frame_lines audioFrame w l I) as I'.
    destruct (on_frame audioFrame (w, l)) as [[|] [w' l']];
      unfold phase_invariant; cbn in I' |- *.
    + exact I'.
    + apply cleanup_lines, (P_Q _ _ I').
  - apply cleanup_lines, (P_Q _ _ I).
  - apply cleanup_lines, Q_log, (P_Q _ _ I). reflexivity.
Qed.

Lemma feed_lines rs s : phase_invariant P Q s -> phase_invariant P Q (feed rs s).
Proof.
  revert s. induction rs as [|r rs IH]; intros [w ph] I; [exact I|].
  cbn [feed snd fst]. destruct ph as [l|]; [|exact I].
  apply IH, resume_lines, I.
Qed.

End Invariant_lines.

(** Reading an invariant off the result of a whole invocation. *)
Lemma phase_invariant_world (P : W -> Locals.t -> Prop) (Q : W -> Prop) s :
  (forall w l, P w l -> Q w) -> phase_invariant P Q s -> Q (fst s).
Proof.
  destruct s as [w [l|]]; unfold phase_invariant; cbn; eauto.
Qed.

(** An invariant established by the prologue holds of whatever a whole
    invocation leaves behind. *)
Lemma invocation_lines (P : W -> Locals.t -> Prop) (Q : W -> Prop)
    rs callEnded now (w0 : W) :
  (forall w l, P w l -> loop_guard l = true ->
     P (fst (send_frame (w, l))) (snd (send_frame (w, l)))) ->
  (forall w l e, frame_line e = true -> P w l -> P (World.log e w) l) ->
  (forall w l frames total, P w l -> P w (Locals.set_counters frames total l)) ->
  (forall w l pcm temp, P w l -> P w (Locals.set_buffers pcm temp l)) ->
  (forall w l, P w l -> Q w) ->
  (forall w e, exit_line e = true -> Q w -> Q (World.log e w)) ->
  World.disposed w0 = false ->
  P (World.drew_random w0)
    (Locals.mk callEnded (randomInt (Math_random (World.random_calls w0)))
       [] (repeat x00 FRAME_SIZE) [] 0 0 0 (now / 1000)%Z
       (Z.rem (now / 1000) 65536)) ->
  Q (fst (sendLivekitAudioStreamToCallSession (Some rs) callEnded now w0)).
Proof.
  intros H1 H2 H3 H4 H5 H6 D I. unfold sendLivekitAudioStreamToCallSession.
  rewrite (start_running _ _ _ D).
  apply (phase_invariant_world P Q _ H5).
  apply (feed_lines P Q H1 H2 H3 H4 H5 H6). exact I.
Qed.

Lemma disposed_at_entry rs callEnded now (w0 : W) :
  World.disposed w0 = true ->
  sendLivekitAudioStreamToCallSession (Some rs) callEnded now w0
  = (World.log ErrAlreadyDisposed w0, Terminated).
Proof.
  intros D. unfold sendLivekitAudioStreamToCallSession.
  now rewrite (start_disposed _ _ _ D), feed_terminated.
Qed.

(** X1.  An invocation that receives [callEnded = true] never hands a
    frame to the encoder nor a packet to [sendPacket], whatever the stream
    yields, and returns on the first frame the stream yields. *)
Theorem ended_call_sends_nothing rs now (w0 : W) :
  let r := sendLivekitAudioStreamToCallSession (Some rs) true now w0 in
  World.encode_calls (fst r) = World.encode_calls w0
  /\ World.sendPacket_calls (fst r) = World.sendPacket_calls w0
  /\ (forall audioFrame rest, rs = Yield audioFrame :: rest ->
      snd r = Terminated).
Proof.
  intros r. subst r. destruct (World.disposed w0) eqn:D.
  { rewrite (disposed_at_entry _ _ _ _ D). cbn. repeat split. }
  split; [|split].
  - apply (invocation_lines
             (fun w l => Locals.callEnded l = true
                         /\ World.encode_calls w = World.encode_calls w0)
             (fun w => World.encode_calls w = World.encode_calls w0));
      [ intros w l [C _] G; unfold loop_guard in G;
        rewrite C, andb_false_r in G; discriminate G
      | intros w l e _ I; exact I
      | intros w l frames total I; exact I
      | intros w l pcm temp I; exact I
      | intros w l [_ I]; exact I
      | intros w e _ I; exact I
      | exact D
      | split; reflexivity ].
  - apply (invocation_lines
             (fun w l => Locals.callEnded l = true
                         /\ World.sendPacket_calls w = World.sendPacket_calls w0)
             (fun w => World.sendPacket_calls w = World.sendPacket_calls w0));
      [ intros w l [C _] G; unfold loop_guard in G;
        rewrite C, andb_false_r in G; discriminate G
      | intros w l e _ I; exact I
      | intros w l frames total I; exact I
      | intros w l pcm temp I; exact I
      | intros w l [_ I]; exact I
      | intros w e _ I; exact I
      | exact D
      | split; reflexivity ].
  - intros audioFrame rest ->. unfold sendLivekitAudioStreamToCallSession.
    rewrite (start_running _ _ _ D), feed_cons. unfold resume, on_frame.
    cbn [Locals.callEnded]. apply (f_equal snd (feed_terminated rest _)).
Qed.

(** How many encoding-error lines (line 217) the console shows. *)
Definition encoding_errors (console : list Log) : nat :=
  length (filter is_encoding_error console).

Arguments encoding_errors : simpl never.

Lemma encoding_errors_app a b :
  encoding_errors (a ++ b) = encoding_errors a + encoding_errors b.
Proof. unfold encoding_errors. now rewrite filter_app, length_app. Qed.

Lemma encoding_errors_line e :
  encoding_errors [e] = if is_encoding_error e then 1 else 0.
Proof. unfold encoding_errors. cbn. now destruct (is_encoding_error e). Qed.

(** How many of the calls of [sendPacket] made after [handed] threw. *)
Fixpoint rejected_from (handed calls : list RtpPacket.t) : nat :=
  match calls with
  | [] => 0
  | rtpPacket :: later =>
    (if sendPacket_throws handed rtpPacket then 1 else 0)
    + rejected_from (handed ++ [rtpPacket]) later
  end.

(** How many of all the calls of [sendPacket] threw. *)
Definition rejected (calls : list RtpPacket.t) : nat := rejected_from [] calls.

Arguments rejected : simpl never.

Lemma rejected_from_snoc handed calls rtpPacket :
  rejected_from handed (calls ++ [rtpPacket])
  = rejected_from handed calls
    + (if sendPacket_throws (handed ++ calls) rtpPacket then 1 else 0).
Proof.
  revert handed. induction calls as [|c calls IH]; intros handed; cbn.
  - rewrite app_nil_r. lia.
  - rewrite IH, <- app_assoc. cbn. lia.
Qed.

Lemma rejected_snoc calls rtpPacket :
  rejected (calls ++ [rtpPacket])
  = rejected calls + (if sendPacket_throws calls rtpPacket then 1 else 0).
Proof. unfold rejected. now rewrite rejected_from_snoc. Qed.

Lemma rejected_from_none handed calls :
  (forall h rtpPacket, sendPacket_throws h rtpPacket = false) ->
  rejected_from handed calls = 0.
Proof.
  intros N. revert handed. induction calls as [|c calls IH]; intros handed; cbn.
  - reflexivity.
  - now rewrite N, IH.
Qed.

(** X2.  Over a whole invocation, every frame handed to the encoder is
    either handed to [sendPacket] as one packet or reported by one
    encoding-error line: when [sendPacket] never throws, its calls and the
    error lines together count the calls of [encode].  In general a call of
    [sendPacket] that throws is both a call and a line, and is counted
    once more on the other side. *)
Theorem encoded_frames_are_sent_or_reported rs callEnded now (w0 : W) :
  let r := sendLivekitAudioStreamToCallSession (Some rs) callEnded now w0 in
  (length (World.sendPacket_calls (fst r))
   + encoding_errors (World.console (fst r))
   + length (World.encode_calls w0)
   + rejected (World.sendPacket_calls w0)
   = length (World.encode_calls (fst r))
     + length (World.sendPacket_calls w0)
     + encoding_errors (World.console w0)
     + rejected (World.sendPacket_calls (fst r)))
  /\ ((forall handed rtpPacket, sendPacket_throws handed rtpPacket = false) ->
      length (World.sendPacket_calls (fst r))
      + encoding_errors (World.console (fst r))
      + length (World.encode_calls w0)
      = length (World.encode_calls (fst r))
        + length (World.sendPacket_calls w0)
        + encoding_errors (World.console w0)).
Proof.
  intros r.
  assert (length (World.sendPacket_calls (fst r))
          + encoding_errors (World.console (fst r))
          + length (World.encode_calls w0)
          + rejected (World.sendPacket_calls w0)
          = length (World.encode_calls (fst r))
            + length (World.sendPacket_calls w0)
            + encoding_errors (World.console w0)
            + rejected (World.sendPacket_calls (fst r))) as General.
  { subst r. destruct (World.disposed w0) eqn:D.
    { rewrite (disposed_at_entry _ _ _ _ D). cbn.
      rewrite encoding_errors_app, encoding_errors_line. cbn. lia. }
    set (Q := fun w : W =>
                length (World.sendPacket_calls w)
                + encoding_errors (World.console w)
                + length (World.encode_calls w0)
                + rejected (World.sendPacket_calls w0)
                = length (World.encode_calls w)
                  + length (World.sendPacket_calls w0)
                  + encoding_errors (World.console w0)
                  + rejected (World.sendPacket_calls w)).
    apply (invocation_lines (fun w _ => Q w) Q); subst Q; cbv beta;
      [ intros w l I _
      | intros w l e F I
      | intros w l frames total I; exact I
      | intros w l pcm temp I; exact I
      | intros w l I; exact I
      | intros w e F I
      | exact D
      | cbn; lia ].
    - destruct (send_frame_cases w l)
        as [[e [_ ->]]|[[e [d [_ [T ->]]]]|[e [d [_ [T ->]]]]]]; cbn;
        rewrite ?rejected_snoc, ?T, ?encoding_errors_app,
          ?encoding_errors_line, ?length_app;
        cbn; lia.
    - cbn. rewrite encoding_errors_app, encoding_errors_line.
      destruct e; try discriminate F; cbn; lia.
    - cbn. rewrite encoding_errors_app, encoding_errors_line.
      destruct e; try discriminate F; cbn; lia. }
  split; [exact General|]. intros N. unfold rejected in General.
  rewrite !(rejected_from_none _ _ N) in General. lia.
Qed.

(** X3.  Every packet of an invocation carries the payload type of the
    session's codec, with the marker bit unset, a 12-byte header, no CSRC
    and no header extension. *)
Theorem packets_carry_codec_payload_type rs callEnded now (w0 : W) :
  let r := sendLivekitAudioStreamToCallSession (Some rs) callEnded now w0 in
  exists emitted,
    World.sendPacket_calls (fst r) = World.sendPacket_calls w0 ++ emitted
    /\ Forall (fun pkt =>
                 let h := RtpPacket.header pkt in
                 RtpHeader.payloadType h = codec_id
                 /\ RtpHeader.marker h = false
                 /\ RtpHeader.payloadOffset h = 12%Z
                 /\ RtpHeader.paddingSize h = 0%Z
                 /\ RtpHeader.csrcLength h = 0%Z
                 /\ RtpHeader.csrc h = []
                 /\ RtpHeader.extensions h = []) emitted.
Proof.
  intros r. subst r. destruct (World.disposed w0) eqn:D.
  { rewrite (disposed_at_entry _ _ _ _ D). exists []. cbn.
    split; [now rewrite app_nil_r | constructor]. }
  match goal with |- exists emitted, _ = _ /\ Forall ?F _ =>
    set (Q := fun w : W =>
                exists emitted,
                  World.sendPacket_calls w = World.sendPacket_calls w0 ++ emitted
                  /\ Forall F emitted)
  end.
  apply (invocation_lines (fun w _ => Q w) Q); subst Q; cbv beta;
    [ intros w l [emitted [E F]] _
    | intros w l e _ I; exact I
    | intros w l frames total I; exact I
    | intros w l pcm temp I; exact I
    | intros w l I; exact I
    | intros w e _ I; exact I
    | exact D
    | exists []; cbn; split; [now rewrite app_nil_r | constructor] ].
  destruct (send_frame_cases w l)
    as [[e [_ ->]]|[[e [d [_ [_ ->]]]]|[e [d [_ [_ ->]]]]]]; cbn.
  - exists emitted. split; assumption.
  - exists (emitted ++ [make_packet l d]). split.
    + now rewrite E, app_assoc.
    + apply Forall_app. split; [exact F|]. constructor; [|constructor].
      cbn. repeat split.
  - exists (emitted ++ [make_packet l d]). split.
    + now rewrite E, app_assoc.
    + apply Forall_app. split; [exact F|]. constructor; [|constructor].
      cbn. repeat split.
Qed.

(** *** The closure of [inviteUserToRoom] *)

Definition status_eqb (a b : RingCentralLiveKitConnectorCallStatus) : bool :=
  match a, b with
  | ANSWERED, ANSWERED | BUSY, BUSY | DISPOSED, DISPOSED => true
  | _, _ => false
  end.

(** How often the status callback was called with [status]. *)
Definition reports (status : RingCentralLiveKitConnectorCallStatus)
    (calls : list RingCentralLiveKitConnectorCallStatus) : nat :=
  length (filter (status_eqb status) calls).

(** Whether an event is the call-session event that stands for [status]. *)
Definition emits (status : RingCentralLiveKitConnectorCallStatus) (ev : Event) : bool :=
  match status, ev with
  | ANSWERED, Emit_answered | BUSY, Emit_busy | DISPOSED, Emit_disposed => true
  | _, _ => false
  end.

(** Whether the [once] handler of [status] is still registered. *)
Definition pending_once (status : RingCentralLiveKitConnectorCallStatus)
    (s : Closure) : bool :=
  match status with
  | ANSWERED => Invite.once_answered s
  | BUSY => Invite.once_busy s
  | DISPOSED => Invite.once_disposed s
  end.

(** Whether a [trackSubscribed] event starts an outbound invocation. *)
Definition starts_invocation (ev : Event) : bool :=
  match ev with
  | Emit_trackSubscribed kind participant _ => selected kind participant
  | _ => false
  end.

Definition closure_consistent (s : Closure) : Prop :=
  Invite.callEnded s
  = negb (Invite.once_busy s && Invite.once_disposed s)
  /\ forall status,
       reports status (Invite.statusChanges s)
       = if pending_once status s then 0
         else if Options.onCallStatusChange options then 1 else 0.

Lemma reports_notify status status' calls :
  reports status (notify status' calls)
  = reports status calls
    + if Options.onCallStatusChange options && status_eqb status status'
      then 1 else 0.
Proof.
  unfold notify, reports. destruct (Options.onCallStatusChange options).
  - rewrite filter_app, length_app. cbn.
    destruct (status_eqb status status'); reflexivity.
  - cbn. lia.
Qed.

Lemma dispatch_once status ev (s : Closure) :
  pending_once status (dispatch ev s)
  = pending_once status s && negb (emits status ev).
Proof.
  destruct s as [w rate chans ended a b d calls streams].
  destruct ev; cbn [dispatch];
    try (destruct status; cbn; now rewrite andb_true_r).
  - destruct a; destruct status; cbn; now rewrite ?andb_true_r, ?andb_false_r.
  - destruct b; destruct status; cbn; now rewrite ?andb_true_r, ?andb_false_r.
  - destruct d; destruct status; cbn; now rewrite ?andb_true_r, ?andb_false_r.
  - destruct (selected _ _); [destruct (start _ _ _ _)|];
      destruct status; cbn; now rewrite andb_true_r.
  - destruct (nth_error streams stream) as [[l|]|];
      [destruct (resume _ _)| |]; destruct status; cbn; now rewrite andb_true_r.
Qed.

Lemma dispatch_consistent ev (s : Closure) :
  closure_consistent s -> closure_consistent (dispatch ev s).
Proof.
  destruct s as [w rate chans ended a b d calls streams].
  unfold closure_consistent. intros [E R].
  cbn [Invite.callEnded Invite.once_busy Invite.once_disposed
       Invite.statusChanges] in E.
  assert (forall status,
             reports status calls
             = if match status with ANSWERED => a | BUSY => b | DISPOSED => d end
               then 0 else if Options.onCallStatusChange options then 1 else 0)
    as R' by exact R. clear R.
  destruct ev; cbn [dispatch].
  - destruct a; [|split; [exact E | exact R']]. split; [exact E|].
    intros status.
      cbn [pending_once Invite.once_answered Invite.once_busy
           Invite.once_disposed Invite.statusChanges].
      rewrite reports_notify, (R' status).
    destruct status, b, d, (Options.onCallStatusChange options); cbn; lia.
  - destruct b; [|split; [exact E | exact R']]. split; [reflexivity|].
    intros status.
      cbn [pending_once Invite.once_answered Invite.once_busy
           Invite.once_disposed Invite.statusChanges].
      rewrite reports_notify, (R' status).
    destruct status, a, d, (Options.onCallStatusChange options); cbn; lia.
  - destruct d.
    + split; [cbn; now rewrite andb_false_r|].
      intros status.
      cbn [pending_once Invite.once_answered Invite.once_busy
           Invite.once_disposed Invite.statusChanges].
      rewrite reports_notify, (R' status).
      destruct status, a, b, (Options.onCallStatusChange options); cbn; lia.
    + split; [exact E | exact R'].
  - split; [exact E | exact R'].
  - destruct (selected _ _); [destruct (start _ _ _ _)|];
      (split; [exact E | exact R']).
  - destruct (nth_error streams stream) as [[l|]|];
      [destruct (resume _ _)| |]; (split; [exact E | exact R']).
Qed.

Lemma run_events_snoc evs ev (s : Closure) :
  run_events (evs ++ [ev]) s = dispatch ev (run_events evs s).
Proof. unfold run_events. now rewrite fold_left_app. Qed.

Lemma run_events_consistent evs (w0 : W) :
  closure_consistent (run_events evs (invited w0)).
Proof.
  induction evs as [|ev evs IH] using rev_ind.
  - split; [reflexivity|]. intros status. destruct status; reflexivity.
  - rewrite run_events_snoc. now apply dispatch_consistent.
Qed.

Lemma run_events_once status evs (w0 : W) :
  pending_once status (run_events evs (invited w0))
  = negb (existsb (emits status) evs).
Proof.
  induction evs as [|ev evs IH] using rev_ind.
  - destruct status; reflexivity.
  - rewrite run_events_snoc, dispatch_once, IH, existsb_app. cbn.
    now rewrite orb_false_r, negb_orb.
Qed.

(** X4.  Whatever the call session emits, and however often, the status
    callback is called with each status once if the caller passed a
    callback and the matching event was emitted at least once, and never
    otherwise. *)
Theorem status_reported_once status evs (w0 : W) :
  reports status (Invite.statusChanges (run_events evs (invited w0)))
  = if Options.onCallStatusChange options && existsb (emits status) evs
    then 1 else 0.
Proof.
  destruct (run_events_consistent evs w0) as [_ R].
  rewrite (R status), run_events_once.
  destruct (existsb (emits status) evs), (Options.onCallStatusChange options);
    reflexivity.
Qed.

(** X5.  The variable [callEnded] of [inviteUserToRoom] is true exactly
    when the call session has emitted [busy] or [disposed]; [answered],
    audio packets and the room never set it, and nothing resets it. *)
Theorem callEnded_iff_busy_or_disposed evs (w0 : W) :
  Invite.callEnded (run_events evs (invited w0))
  = existsb (fun ev => emits BUSY ev || emits DISPOSED ev) evs.
Proof.
  destruct (run_events_consistent evs w0) as [E _]. rewrite E.
  pose proof (run_events_once BUSY evs w0) as B.
  pose proof (run_events_once DISPOSED evs w0) as D.
  cbn [pending_once] in B, D. rewrite B, D, negb_andb, !negb_involutive.
  clear. induction evs as [|ev evs IH]; [reflexivity|].
  cbn [existsb]. rewrite <- IH.
  destruct (emits BUSY ev), (emits DISPOSED ev),
    (existsb (emits BUSY) evs), (existsb (emits DISPOSED) evs); reflexivity.
Qed.

Lemma replace_nth_length {A} i (x : A) xs :
  length (replace_nth i x xs) = length xs.
Proof.
  revert i. induction xs as [|y xs IH]; intros [|i]; cbn; auto.
Qed.

(** X6.  Every [trackSubscribed] event for an audio track of the selected
    participant starts one more outbound invocation, also when the call
    has already ended or another invocation is running; no other event
    starts one, and a started invocation is never removed from the list. *)
Theorem one_invocation_per_selected_track evs (s : Closure) :
  length (Invite.streams (run_events evs s))
  = length (Invite.streams s) + length (filter starts_invocation evs).
Proof.
  revert s. induction evs as [|ev evs IH]; intros s; [cbn; lia|].
  cbn [run_events fold_left]. fold (run_events evs (dispatch ev s)).
  rewrite IH. clear IH.
  destruct s as [w rate chans ended a b d calls streams].
  destruct ev; cbn [dispatch filter starts_invocation].
  - destruct a; cbn; lia.
  - destruct b; cbn; lia.
  - destruct d; cbn; lia.
  - cbn; lia.
  - destruct (selected kind participant);
      [destruct (start _ _ _ _); cbn; rewrite length_app; cbn; lia | cbn; lia].
  - destruct (nth_error streams stream) as [[l|]|];
      [destruct (resume _ _); cbn; rewrite replace_nth_length; lia
      | cbn; lia | cbn; lia].
Qed.

(** The two directions share no state.  An inbound packet leaves the
    encoder, the record of encoded frames and sent packets, the ssrc
    draws, the flag and the invocations as they were; starting or
    resuming an outbound invocation leaves the room audio source and the
    decoder as they were. *)
Theorem pipelines_share_no_state ev (s : Closure) :
  let w := Invite.world s in
  let w' := Invite.world (dispatch ev s) in
  match ev with
  | Emit_audioPacket _ =>
    World.encoder w' = World.encoder w
    /\ World.encode_calls w' = World.encode_calls w
    /\ World.sendPacket_calls w' = World.sendPacket_calls w
    /\ World.random_calls w' = World.random_calls w
    /\ World.disposed w' = World.disposed w
    /\ Invite.callEnded (dispatch ev s) = Invite.callEnded s
    /\ Invite.streams (dispatch ev s) = Invite.streams s
  | Emit_trackSubscribed _ _ _ | Settle _ _ =>
    World.source w' = World.source w
    /\ World.decoder w' = World.decoder w
    /\ Invite.callEnded (dispatch ev s) = Invite.callEnded s
  | _ => True
  end.
Proof.
  destruct s as [w rate chans ended a b d calls streams].
  destruct ev; cbn [dispatch Invite.world Invite.callEnded Invite.streams];
    try exact I.
  - unfold on_audioPacket.
    destruct (new_Uint8Array _ _ _) as [encoded|]; [|cbn; repeat split].
    destruct (decode _ _) as [d' [pcm|]]; [|cbn; repeat split].
    destruct (Int16Array.construct _ _ _ _) as [samples|]; [|cbn; repeat split].
    destruct (captureFrame_throws _ _); cbn; repeat split.
  - destruct (selected _ _); [|repeat split]. unfold start. cbn [negb].
    destruct (World.disposed w); cbn; repeat split.
  - destruct (nth_error streams stream) as [[l|]|];
      [|repeat split|repeat split].
    pose proof (resume_invariant
                  (fun w' _ => World.source w' = World.source w
                               /\ World.decoder w' = World.decoder w)
                  (fun w' => World.source w' = World.source w
                             /\ World.decoder w' = World.decoder w)) as K.
    specialize (K ltac:(intros w1 l1 J _;
                        destruct (send_frame_cases w1 l1)
                          as [[e [_ ->]]|[[e [dd [_ [_ ->]]]]|[e [dd [_ [_ ->]]]]]]; exact J)
                  ltac:(intros; assumption) ltac:(intros; assumption)
                  ltac:(intros; assumption) ltac:(intros; assumption)
                  ltac:(intros; assumption) r w l (conj eq_refl eq_refl)).
    unfold phase_invariant in K.
    destruct (resume r (w, l)) as [w' [l'|]]; cbn in K |- *;
      destruct K as [K1 K2]; repeat split; assumption.
Qed.

(** *** What a running invocation holds and counts *)

(** A frame without data is skipped: one console line, nothing else. *)
Lemma resume_invalid audioFrame (w : W) l :
  Locals.callEnded l = false ->
  match audioFrame with
  | Some (RoomFrame.mk (Some _)) => False
  | _ => True
  end ->
  resume (Yield audioFrame) (w, l) = (World.log LogInvalidFrame w, Running l).
Proof.
  intros C V. unfold resume, on_frame. rewrite C.
  destruct audioFrame as [[[data|]]|]; [destruct V | reflexivity | reflexivity].
Qed.

(** The pending list after [accumulate] never has more than 3 entries. *)
Lemma accumulate_pending_bound chunk l :
  length (Locals.tempBuffer (accumulate chunk l)) <= 3.
Proof.
  unfold accumulate.
  destruct (Nat.ltb_spec 3 (length (Locals.tempBuffer l ++ [chunk]))) as [H|H];
    cbn [orb Locals.set_buffers Locals.tempBuffer length]; [lia|].
  destruct (FRAME_SIZE <=? _); cbn [Locals.set_buffers Locals.tempBuffer length];
    lia.
Qed.

(** The inner loop leaves the pending list and the counters alone. *)
Lemma drain_keeps_counters st :
  Locals.tempBuffer (snd (drain st)) = Locals.tempBuffer (snd st)
  /\ Locals.frameCount (snd (drain st)) = Locals.frameCount (snd st)
  /\ Locals.totalBytesProcessed (snd (drain st))
     = Locals.totalBytesProcessed (snd st)
  /\ Locals.gcCount (snd (drain st)) = Locals.gcCount (snd st).
Proof.
  apply (drain_invariant
           (fun _ l =>
              Locals.tempBuffer l = Locals.tempBuffer (snd st)
              /\ Locals.frameCount l = Locals.frameCount (snd st)
              /\ Locals.totalBytesProcessed l
                 = Locals.totalBytesProcessed (snd st)
              /\ Locals.gcCount l = Locals.gcCount (snd st)));
    [|repeat split].
  intros w l I _.
  destruct (send_frame_cases w l)
    as [[e [_ ->]]|[[e [d [_ [_ ->]]]]|[e [d [_ [_ ->]]]]]]; exact I.
Qed.

(** A valid frame on a call that has not ended: the counters advance, and
    the frame goes through the protection, the accumulation and the inner
    loop. *)
Lemma valid_frame_counts chunk (w : W) l :
  Locals.callEnded l = false ->
  exists w' l',
    resume (valid_frame chunk) (w, l) = (w', Running l')
    /\ length (Locals.tempBuffer l') <= 3
    /\ Locals.frameCount l' = S (Locals.frameCount l)
    /\ Locals.totalBytesProcessed l'
       = Locals.totalBytesProcessed l + length chunk
    /\ Locals.gcCount l' = Locals.gcCount l.
Proof.
  intros C. unfold resume, valid_frame, on_frame. rewrite C.
  unfold protect. cbn [Locals.pcmBuffer Locals.set_counters].
  set (l1 := Locals.set_counters _ _ l).
  assert (forall (w2 : W) l2,
             Locals.frameCount l2 = S (Locals.frameCount l) ->
             Locals.totalBytesProcessed l2
             = Locals.totalBytesProcessed l + length chunk ->
             Locals.gcCount l2 = Locals.gcCount l ->
             exists w' l',
               drain (w2, accumulate chunk l2) = (w', l')
               /\ length (Locals.tempBuffer l') <= 3
               /\ Locals.frameCount l' = S (Locals.frameCount l)
               /\ Locals.totalBytesProcessed l'
                  = Locals.totalBytesProcessed l + length chunk
               /\ Locals.gcCount l' = Locals.gcCount l) as Step.
  { intros w2 l2 N T G.
    destruct (drain_keeps_counters (w2, accumulate chunk l2))
      as [Kt [Kn [Kb Kg]]].
    pose proof (accumulate_pending_bound chunk l2) as B.
    assert (Locals.frameCount (accumulate chunk l2) = Locals.frameCount l2
            /\ Locals.totalBytesProcessed (accumulate chunk l2)
               = Locals.totalBytesProcessed l2
            /\ Locals.gcCount (accumulate chunk l2) = Locals.gcCount l2)
      as [An [Ab Ag]]
      by (unfold accumulate; destruct (_ || _); repeat split).
    destruct (drain (w2, accumulate chunk l2)) as [w' l']. cbn [snd] in *.
    exists w', l'. split; [reflexivity|]. split; [now rewrite Kt|].
    split; [congruence|]. split; congruence. }
  destruct (MAX_BUFFER_SIZE <? length (Locals.pcmBuffer l) + length chunk).
  - destruct (Step (World.log (LogOverflow (length (Locals.pcmBuffer l))) w)
                (Locals.set_buffers [] [] l1) eq_refl eq_refl eq_refl)
      as [w' [l' [D R]]].
    rewrite D. exists w', l'. split; [reflexivity | exact R].
  - destruct (Step w l1 eq_refl eq_refl eq_refl) as [w' [l' [D R]]].
    rewrite D. exists w', l'. split; [reflexivity | exact R].
Qed.

(** Whether a yielded frame passes the validation of line 141, and the
    bytes it then carries. *)
Definition chunk_of (audioFrame : option RoomFrame.t) : option bytes :=
  match audioFrame with
  | Some (RoomFrame.mk (Some data)) => Some data
  | _ => None
  end.

Definition valid_count (frames : list (option RoomFrame.t)) : nat :=
  length (filter (fun f => match chunk_of f with Some _ => true | None => false end)
            frames).

Definition valid_bytes (frames : list (option RoomFrame.t)) : nat :=
  fold_right (fun f total =>
                match chunk_of f with
                | Some data => length data + total
                | None => total
                end) 0 frames.

(** What a stream of yielded frames, valid or not, leaves of a running
    invocation whose call has not ended. *)
Lemma feed_frames frames :
  forall (w : W) l,
    Locals.callEnded l = false ->
    length (Locals.frameBuffer l) = FRAME_SIZE ->
    length (buffered l) < FRAME_SIZE ->
    length (Locals.tempBuffer l) <= 3 ->
    exists w' l',
      feed (map Yield frames) (w, Running l) = (w', Running l')
      /\ Locals.callEnded l' = false
      /\ length (Locals.frameBuffer l') = FRAME_SIZE
      /\ length (buffered l') < FRAME_SIZE
      /\ length (Locals.tempBuffer l') <= 3
      /\ Locals.frameCount l' = Locals.frameCount l + valid_count frames
      /\ Locals.totalBytesProcessed l'
         = Locals.totalBytesProcessed l + valid_bytes frames
      /\ Locals.gcCount l' = Locals.gcCount l.
Proof.
  induction frames as [|f frames IH]; intros w l C F B T.
  - exists w, l. cbn. repeat split; try assumption; lia.
  - cbn [map]. rewrite feed_cons.
    destruct (chunk_of f) as [data|] eqn:V.
    + assert (Yield f = valid_frame data) as ->.
      { destruct f as [[[d|]]|]; try discriminate V. cbn in V.
        now injection V as ->. }
      destruct (valid_frame_conserves data w l C F)
        as [w1 [l1 [R [C1 [F1 [B1 _]]]]]].
      destruct (valid_frame_counts data w l C)
        as [w1' [l1' [R' [T1 [N1 [S1 G1]]]]]].
      rewrite R in R'. injection R' as <- <-. rewrite R.
      destruct (IH w1 l1 C1 F1 B1 T1)
        as [w' [l' [D [C' [F' [B' [T' [N' [S' G']]]]]]]]].
      exists w', l'. split; [exact D|]. repeat split; try assumption.
      * rewrite N', N1. unfold valid_count. cbn [filter]. rewrite V. cbn. lia.
      * rewrite S', S1. cbn [valid_bytes fold_right]. rewrite V.
        fold (valid_bytes frames). lia.
      * congruence.
    + rewrite resume_invalid;
        [|exact C | destruct f as [[[d|]]|]; [discriminate V | exact I | exact I]].
      destruct (IH (World.log LogInvalidFrame w) l C F B T)
        as [w' [l' [D [C' [F' [B' [T' [N' [S' G']]]]]]]]].
      exists w', l'. split; [exact D|]. repeat split; try assumption.
      * rewrite N'. unfold valid_count. cbn [filter]. now rewrite V.
      * rewrite S'. cbn [valid_bytes fold_right]. now rewrite V.
Qed.

(** X8.  While the call has not ended, an invocation suspended between
    two frames holds less than one frame (640 bytes) in all, and at most 3
    pending chunks, whatever frames, valid or not, it was fed. *)
Theorem little_is_held_between_frames frames now (w0 : W) :
  World.disposed w0 = false ->
  exists l,
    snd (sendLivekitAudioStreamToCallSession (Some (map Yield frames))
           false now w0) = Running l
    /\ length (Locals.pcmBuffer l) + length (concat (Locals.tempBuffer l)) < 640
    /\ length (Locals.tempBuffer l) <= 3.
Proof.
  intros D. unfold sendLivekitAudioStreamToCallSession.
  rewrite (start_running _ _ _ D).
  match goal with |- context [Running ?l] => set (l0 := l) end.
  destruct (feed_frames frames (World.drew_random w0) l0)
    as [w' [l' [R [_ [_ [B [T _]]]]]]].
  - reflexivity.
  - apply repeat_length.
  - cbn. rewrite FRAME_SIZE_value. lia.
  - cbn. lia.
  - rewrite R. exists l'. split; [reflexivity|].
    unfold buffered in B. rewrite length_app, FRAME_SIZE_value in B.
    split; assumption.
Qed.

(** X9.  When the stream ends or fails, the [finally] block closes the
    console with the summary and the completion line: the summary counts
    the frames that passed validation, the kilobytes they carried (rounded
    half up) and always 0 garbage collections, the counter of line 126
    being never advanced. *)
Theorem summary_counts_valid_frames frames (failed : bool) now (w0 : W) :
  World.disposed w0 = false ->
  let rs := map Yield frames ++ [if failed then Throw else Done] in
  let r := sendLivekitAudioStreamToCallSession (Some rs) false now w0 in
  snd r = Terminated
  /\ exists before,
       World.console (fst r)
       = before
         ++ [ LogCompleted (valid_count frames)
                ((2 * valid_bytes frames + 1024) / 2048) 0;
              LogFinished ].
Proof.
  intros D rs r. subst r rs. unfold sendLivekitAudioStreamToCallSession.
  rewrite (start_running _ _ _ D), feed_app.
  match goal with |- context [Running ?l] => set (l0 := l) end.
  destruct (feed_frames frames (World.drew_random w0) l0)
    as [w' [l' [R [_ [_ [_ [_ [N [S G]]]]]]]]].
  - reflexivity.
  - apply repeat_length.
  - cbn. rewrite FRAME_SIZE_value. lia.
  - cbn. lia.
  - rewrite R. cbn in N, S, G.
    destruct failed; cbn [feed snd fst resume]; (split; [reflexivity|]);
      unfold cleanup; rewrite N, S, G;
      destruct global_gc as [[|]|]; cbn [World.console World.log];
      rewrite <- app_assoc; eexists; reflexivity.
Qed.

(** *** The memory protection *)

(** Frames of at most 2560 bytes never reach the ceiling, since less than
    a frame is held when they arrive. *)
Lemma feed_small_frames chunks :
  forall (w : W) l,
    Locals.callEnded l = false ->
    length (Locals.frameBuffer l) = FRAME_SIZE ->
    length (buffered l) < FRAME_SIZE ->
    Forall (fun c => length c <= 2560) chunks ->
    overflows (World.console (fst (feed (map valid_frame chunks) (w, Running l))))
    = overflows (World.console w).
Proof.
  induction chunks as [|chunk chunks IH]; intros w l C F B S; [reflexivity|].
  inversion S as [|c cs Sc Scs]; subst. cbn [map]. rewrite feed_cons.
  destruct (valid_frame_conserves chunk w l C F)
    as [w1 [l1 [R [C1 [F1 [B1 Trip]]]]]].
  rewrite R, (IH w1 l1 C1 F1 B1 Scs).
  unfold buffered in B. rewrite length_app in B.
  destruct (Nat.ltb_spec MAX_BUFFER_SIZE
              (length (Locals.pcmBuffer l) + length chunk)) as [H|H].
  - rewrite MAX_BUFFER_SIZE_value, FRAME_SIZE_value in *. lia.
  - exact (proj1 Trip).
Qed.

(** X10.  On a call that has not ended, a stream of valid frames of at
    most 2560 bytes each never trips the memory protection and loses no
    audio: the frames handed to the encoder have 640 bytes each and,
    followed by the less than 640 bytes still held, are the bytes
    received, in order. *)
Theorem small_frames_are_never_dropped chunks now (w0 : W) :
  World.disposed w0 = false ->
  Forall (fun c => length c <= 2560) chunks ->
  let r := sendLivekitAudioStreamToCallSession
             (Some (map valid_frame chunks)) false now w0 in
  overflows (World.console (fst r)) = overflows (World.console w0)
  /\ exists frames l,
       snd r = Running l
       /\ World.encode_calls (fst r) = World.encode_calls w0 ++ frames
       /\ Forall (fun f => length f = 640) frames
       /\ concat chunks
          = concat frames ++ Locals.pcmBuffer l ++ concat (Locals.tempBuffer l)
       /\ length (Locals.pcmBuffer l ++ concat (Locals.tempBuffer l)) < 640.
Proof.
  intros D S r. subst r. unfold sendLivekitAudioStreamToCallSession.
  rewrite (start_running _ _ _ D).
  match goal with |- context [Running ?l] => set (l0 := l) end.
  assert (length (Locals.frameBuffer l0) = FRAME_SIZE) as F0
    by apply repeat_length.
  assert (length (buffered l0) < FRAME_SIZE) as B0
    by (cbn; rewrite FRAME_SIZE_value; lia).
  pose proof (feed_small_frames chunks (World.drew_random w0) l0
                eq_refl F0 B0 S) as O.
  split; [exact O|].
  destruct (feed_conserves chunks (World.drew_random w0) l0 eq_refl F0 B0 O)
    as [w' [l' [frames [R [E [A [B L]]]]]]].
  rewrite R. exists frames, l'. rewrite FRAME_SIZE_value in A, L.
  repeat split; assumption.
Qed.

(** X11.  When the memory protection fires, everything held is lost, the
    pending chunks as well as the accumulation buffer, while the log line
    counts the accumulation buffer only; the chunk that tripped it is kept
    whole: what is encoded and held afterwards is that chunk. *)
Theorem overflow_drops_everything_held chunk (w : W) l :
  Locals.callEnded l = false ->
  length (Locals.frameBuffer l) = FRAME_SIZE ->
  MAX_BUFFER_SIZE < length (Locals.pcmBuffer l) + length chunk ->
  exists w' l' frames,
    resume (valid_frame chunk) (w, l) = (w', Running l')
    /\ In (LogOverflow (length (Locals.pcmBuffer l))) (World.console w')
    /\ World.encode_calls w' = World.encode_calls w ++ frames
    /\ concat frames ++ Locals.pcmBuffer l' ++ concat (Locals.tempBuffer l')
       = chunk.
Proof.
  intros C F Trip. unfold resume, valid_frame, on_frame. rewrite C.
  unfold protect. cbn [Locals.pcmBuffer Locals.set_counters].
  apply Nat.ltb_lt in Trip. rewrite Trip.
  set (l1 := Locals.set_buffers [] [] _).
  set (w1 := World.log _ w).
  destruct (accumulate_spec chunk l1) as [Ca [Fa [Ba _]]].
  destruct (drain_conserves (w1, accumulate chunk l1))
    as [frames [E [_ [P [_ [T _]]]]]];
    [cbn [snd]; rewrite Ca; exact C | cbn [snd]; rewrite Fa; exact F |].
  pose proof (drain_invariant
                (fun w' _ => In (LogOverflow (length (Locals.pcmBuffer l)))
                               (World.console w'))) as K.
  specialize (K ltac:(intros w2 l2 J _;
                      destruct (send_frame_cases w2 l2)
                        as [[e [_ ->]]|[[e [d [_ [_ ->]]]]
                                       |[e [d [_ [_ ->]]]]]]; cbn;
                      [ apply in_or_app; left; exact J
                      | exact J
                      | apply in_or_app; left; exact J ])
                (w1, accumulate chunk l1)
                ltac:(subst w1; cbn; apply in_or_app; right; left; reflexivity)).
  destruct (drain (w1, accumulate chunk l1)) as [w' l']. cbn [fst snd] in *.
  exists w', l', frames. split; [reflexivity|]. split; [exact K|].
  split; [exact E|].
  unfold buffered in Ba. rewrite T, app_assoc, <- P. exact Ba.
Qed.

(** *** Sequence numbers and timestamps *)

Lemma invocation_numbered rs callEnded now (w0 : W) :
  (0 <= now)%Z ->
  exists emitted,
    World.sendPacket_calls
      (fst (sendLivekitAudioStreamToCallSession (Some rs) callEnded now w0))
    = World.sendPacket_calls w0 ++ emitted
    /\ all_numbered (Z.rem (now / 1000) 65536) (now / 1000)%Z emitted.
Proof.
  intros Now. destruct (World.disposed w0) eqn:D.
  - rewrite (disposed_at_entry _ _ _ _ D). exists [].
    split; [cbn; now rewrite app_nil_r | intros [|k] pkt H; discriminate H].
  - unfold sendLivekitAudioStreamToCallSession. rewrite (start_running _ _ _ D).
    match goal with |- context [feed rs ?s] =>
      pose proof (numbering_feed (Z.rem (now / 1000) 65536) (now / 1000)%Z
                    (World.sendPacket_calls w0) rs s) as I
    end.
    unfold phase_invariant at 1 in I. cbn [fst snd] in I.
    lapply I; clear I.
    + intros I. unfold phase_invariant in I.
      destruct (feed rs _) as [w [l|]]; cbn [fst snd] in I |- *.
      * destruct I as [new [E [A _]]]. exists new. split; assumption.
      * exact I.
    + exists []. cbn. split; [now rewrite app_nil_r|].
      split; [intros [|k] pkt H; discriminate H|]. split; [|lia].
      rewrite Z.add_0_r. symmetry. apply Z.mod_small.
      assert (0 <= now / 1000)%Z by (apply Z.div_pos; lia).
      split; [apply Z.rem_nonneg; lia | apply Z.rem_bound_pos; lia].
Qed.

(** X12.  Two packets of one invocation that are less than 65536 packets
    apart never carry the same sequence number, and with a positive codec
    timestamp interval a later packet always carries a larger timestamp. *)
Theorem packets_are_told_apart rs callEnded now (w0 : W) :
  (0 <= now)%Z ->
  let r := sendLivekitAudioStreamToCallSession (Some rs) callEnded now w0 in
  exists emitted,
    World.sendPacket_calls (fst r) = World.sendPacket_calls w0 ++ emitted
    /\ forall i j p q,
         nth_error emitted i = Some p -> nth_error emitted j = Some q ->
         i < j ->
         ((Z.of_nat j < Z.of_nat i + 65536)%Z ->
          RtpHeader.sequenceNumber (RtpPacket.header p)
          <> RtpHeader.sequenceNumber (RtpPacket.header q))
         /\ ((0 < codec_timestampInterval)%Z ->
             (RtpHeader.timestamp (RtpPacket.header p)
              < RtpHeader.timestamp (RtpPacket.header q))%Z).
Proof.
  intros Now r. destruct (invocation_numbered rs callEnded now w0 Now)
    as [emitted [E A]].
  exists emitted. split; [exact E|]. intros i j p q Hp Hq Lt.
  destruct (A _ _ Hp) as [Sp Tp]. destruct (A _ _ Hq) as [Sq Tq]. split.
  - intros Near Same. rewrite Sp, Sq in Same.
    set (a := (Z.rem (now / 1000) 65536 + Z.of_nat i)%Z) in *.
    replace (Z.rem (now / 1000) 65536 + Z.of_nat j)%Z
      with (a + (Z.of_nat j - Z.of_nat i))%Z in Same by lia.
    pose proof (Z.div_mod a 65536 ltac:(lia)) as Da.
    pose proof (Z.div_mod (a + (Z.of_nat j - Z.of_nat i)) 65536 ltac:(lia)) as Db.
    pose proof (Z.mod_pos_bound a 65536 ltac:(lia)) as Ba.
    rewrite <- Same in Db. lia.
  - intros Pos. rewrite Tp, Tq. nia.
Qed.

(** *** The ssrc *)

Lemma randomInt_mono r1 r2 : (r1 <= r2)%Z -> (randomInt r1 <= randomInt r2)%Z.
Proof.
  intros L. unfold randomInt, RANDOM_RESOLUTION.
  change (2 ^ 53)%Z with 9007199254740992%Z.
  apply Z.add_le_mono_r, Z.div_le_mono; lia.
Qed.

(** X13.  [randomInt] covers its range: every integer from 1024 to 65535
    is its value for some result of [Math.random], and it grows with that
    result. *)
Theorem randomInt_covers_range v :
  (1024 <= v <= 65535)%Z ->
  (exists r, (0 <= r < RANDOM_RESOLUTION)%Z /\ randomInt r = v)
  /\ (forall r1 r2, (r1 <= r2)%Z -> (randomInt r1 <= randomInt r2)%Z).
Proof.
  intros V. split; [|exact randomInt_mono].
  unfold randomInt, RANDOM_RESOLUTION.
  change (2 ^ 53)%Z with 9007199254740992%Z.
  change (65535 - 1024 + 1)%Z with 64512%Z.
  set (k := (v - 1024)%Z).
  set (r := ((k * 9007199254740992 + 64511) / 64512)%Z).
  pose proof (Z.mul_div_le (k * 9007199254740992 + 64511) 64512 ltac:(lia)) as Lo.
  pose proof (Z.mul_succ_div_gt (k * 9007199254740992 + 64511) 64512 ltac:(lia))
    as Hi.
  fold r in Lo, Hi.
  exists r. split; [subst k; lia|].
  assert (r * 64512 / 9007199254740992 = k)%Z as Q.
  { symmetry. apply (Z.div_unique_pos _ _ k (r * 64512 - k * 9007199254740992));
      subst k; lia. }
  rewrite Q. subst k. lia.
Qed.

(** *** The inbound direction over a whole call *)

Definition is_audioPacket (ev : Event) : bool :=
  match ev with Emit_audioPacket _ => true | _ => false end.

(** How many lines of the [audioPacket] handler (line 67) the console
    shows. *)
Definition capture_errors (console : list Log) : nat :=
  length (filter is_capture_error console).

Arguments capture_errors : simpl never.

Lemma capture_errors_app a b :
  capture_errors (a ++ b) = capture_errors a + capture_errors b.
Proof. unfold capture_errors. now rewrite filter_app, length_app. Qed.

(** What the inbound handler reads and writes. *)
Definition inbound_view (s : Closure) :=
  (World.source (Invite.world s), World.decoder (Invite.world s),
   Invite.sampleRate s, Invite.channels s).

(** Resuming an invocation leaves the source and the decoder alone and
    writes no line of the inbound handler. *)
Lemma resume_leaves_inbound r (w : W) l :
  World.source (fst (resume r (w, l))) = World.source w
  /\ World.decoder (fst (resume r (w, l))) = World.decoder w
  /\ capture_errors (World.console (fst (resume r (w, l))))
     = capture_errors (World.console w).
Proof.
  set (Q := fun w' : W =>
              World.source w' = World.source w
              /\ World.decoder w' = World.decoder w
              /\ capture_errors (World.console w')
                 = capture_errors (World.console w)).
  assert (forall w' e, is_capture_error e = false -> Q w' -> Q (World.log e w'))
    as Qlog.
  { intros w' e N [S [De Ce]]. subst Q. cbn. repeat split; try assumption.
    rewrite capture_errors_app, Ce. unfold capture_errors at 2. cbn.
    rewrite N. cbn. lia. }
  pose proof (resume_lines (fun w' _ => Q w') Q) as K.
  specialize (K ltac:(intros w1 l1 J _;
                      destruct (send_frame_cases w1 l1)
                        as [[e [_ ->]]|[[e [d [_ [_ ->]]]]
                                       |[e [d [_ [_ ->]]]]]];
                      [ apply Qlog; [reflexivity | exact J]
                      | exact J
                      | apply Qlog; [reflexivity | exact J] ])
                ltac:(intros w1 l1 e F J; apply Qlog;
                        [destruct e; try discriminate F; reflexivity | exact J])
                ltac:(intros; assumption) ltac:(intros; assumption)
                ltac:(intros; assumption)
                ltac:(intros w1 e F J; apply Qlog;
                        [destruct e; try discriminate F; reflexivity | exact J])
                r w l ltac:(subst Q; repeat split)).
  unfold phase_invariant in K.
  destruct (resume r (w, l)) as [w' [l'|]]; exact K.
Qed.

Lemma non_audio_leaves_inbound ev (s : Closure) :
  is_audioPacket ev = false ->
  inbound_view (dispatch ev s) = inbound_view s
  /\ capture_errors (World.console (Invite.world (dispatch ev s)))
     = capture_errors (World.console (Invite.world s)).
Proof.
  intros N. destruct s as [w rate chans ended a b d calls streams].
  unfold inbound_view.
  destruct ev; try discriminate N; cbn [dispatch].
  - destruct a; split; reflexivity.
  - destruct b; split; reflexivity.
  - destruct d; split; reflexivity.
  - destruct (selected _ _); [|split; reflexivity]. unfold start. cbn [negb].
    destruct (World.disposed w); cbn; split; try reflexivity.
    rewrite capture_errors_app. unfold capture_errors at 2. cbn. lia.
  - destruct (nth_error streams stream) as [[l|]|]; [|split; reflexivity..].
    destruct (resume_leaves_inbound r w l) as [S [De Ce]].
    destruct (resume r (w, l)) as [w' ph]. cbn in S, De, Ce |- *.
    now rewrite S, De, Ce.
Qed.

Lemma audio_reads_inbound_view payload (s1 s2 : Closure) :
  inbound_view s1 = inbound_view s2 ->
  inbound_view (dispatch (Emit_audioPacket payload) s1)
  = inbound_view (dispatch (Emit_audioPacket payload) s2).
Proof.
  destruct s1 as [w1 rate1 chans1 ended1 a1 b1 d1 calls1 streams1].
  destruct s2 as [w2 rate2 chans2 ended2 a2 b2 d2 calls2 streams2].
  unfold inbound_view. cbn [dispatch Invite.world Invite.sampleRate
                            Invite.channels].
  intros E. injection E as S De R Ch. subst rate2 chans2.
  destruct (decode (World.decoder w1) payload) as [d r] eqn:D1.
  pose proof D1 as D2. rewrite De in D2.
  rewrite (on_audioPacket_unfold _ _ _ _ _ _ D1),
          (on_audioPacket_unfold _ _ _ _ _ _ D2).
  destruct r as [pcm|]; [|cbn; now rewrite S]. rewrite S.
  destruct (_ && _); cbn; now rewrite S.
Qed.

(** X14.  What is published to the room depends on the inbound packets
    alone: the frames captured by the room audio source (and the state of
    the decoder) after any sequence of events are those after its audio
    packets only.  In particular the inbound direction keeps publishing
    after the call has been reported busy or disposed. *)
Theorem room_audio_depends_on_packets_only evs (s : Closure) :
  inbound_view (run_events evs s)
  = inbound_view (run_events (filter is_audioPacket evs) s).
Proof.
  assert (forall s1 s2 : Closure,
             inbound_view s1 = inbound_view s2 ->
             inbound_view (run_events evs s1)
             = inbound_view (run_events (filter is_audioPacket evs) s2)) as G.
  { induction evs as [|ev evs IH]; intros s1 s2 E; [exact E|].
    cbn [run_events fold_left filter].
    fold (run_events evs (dispatch ev s1)).
    destruct (is_audioPacket ev) eqn:A.
    - cbn [fold_left].
      fold (run_events (filter is_audioPacket evs) (dispatch ev s2)).
      apply IH. destruct ev; try discriminate A.
      now apply audio_reads_inbound_view.
    - fold (run_events (filter is_audioPacket evs) s2). apply IH.
      rewrite <- E. exact (proj1 (non_audio_leaves_inbound ev s1 A)). }
  apply G. reflexivity.
Qed.

(** X15.  Every inbound packet is accounted for: over any sequence of
    events, the frames captured by the room audio source and the error
    lines of the handler together grow by the number of audio packets
    delivered, one frame or one line for each. *)
Theorem each_packet_is_captured_or_reported evs (s : Closure) :
  length (World.source (Invite.world (run_events evs s)))
  + capture_errors (World.console (Invite.world (run_events evs s)))
  = length (World.source (Invite.world s))
    + capture_errors (World.console (Invite.world s))
    + length (filter is_audioPacket evs).
Proof.
  revert s. induction evs as [|ev evs IH]; intros s; [cbn; lia|].
  cbn [run_events fold_left]. fold (run_events evs (dispatch ev s)).
  rewrite IH. clear IH. cbn [filter].
  destruct (is_audioPacket ev) eqn:A.
  - destruct ev; try discriminate A. rewrite dispatch_audioPacket.
    destruct (decode (World.decoder (Invite.world s)) payload) as [d r] eqn:D.
    rewrite (on_audioPacket_unfold _ _ _ _ _ _ D).
    assert (forall w : W,
               length (World.source (World.log ErrCaptureFrame w))
               + capture_errors (World.console (World.log ErrCaptureFrame w))
               = length (World.source w) + capture_errors (World.console w) + 1)
      as Err.
    { intros w. cbn. rewrite capture_errors_app. unfold capture_errors at 2.
      cbn. lia. }
    destruct r as [pcm|]; [destruct (_ && _)|].
    + cbn. rewrite length_app. cbn. lia.
    + rewrite Err. cbn. lia.
    + rewrite Err. cbn. lia.
  - destruct (non_audio_leaves_inbound ev s A) as [V C].
    unfold inbound_view in V. injection V as S _ _ _. rewrite S, C. lia.
Qed.

(** *** What an outbound invocation reads of the shared objects *)

(** Two states of the shared objects that are related in a way every
    operation of the outbound direction respects, and that show the same
    encoder and the same packets handed to [sendPacket], are taken by a settlement of the stream to related states,
    with the same local variables. *)
Section Simulation.

Variable R : W -> W -> Prop.

Hypothesis R_encoder : forall w1 w2, R w1 w2 -> World.encoder w1 = World.encoder w2.
Hypothesis R_handed :
  forall w1 w2, R w1 w2 -> World.sendPacket_calls w1 = World.sendPacket_calls w2.
Hypothesis R_log : forall w1 w2 e, R w1 w2 -> R (World.log e w1) (World.log e w2).
Hypothesis R_encoded :
  forall w1 w2 e input, R w1 w2 ->
    R (World.encoded e input w1) (World.encoded e input w2).
Hypothesis R_sendPacket :
  forall w1 w2 p, R w1 w2 -> R (World.sendPacket p w1) (World.sendPacket p w2).

Lemma send_frame_sim l w1 w2 :
  R w1 w2 ->
  R (fst (send_frame (w1, l))) (fst (send_frame (w2, l)))
  /\ snd (send_frame (w1, l)) = snd (send_frame (w2, l)).
Proof.
  intros H. unfold send_frame. rewrite (R_encoder _ _ H), (R_handed _ _ H).
  destruct (encode _ _) as [e [d|]]; [destruct (sendPacket_throws _ _)|];
    cbn [fst snd]; split; auto.
Qed.

Lemma drain_sim n :
  forall l w1 w2,
    length (Locals.pcmBuffer l) < n -> R w1 w2 ->
    R (fst (drain (w1, l))) (fst (drain (w2, l)))
    /\ snd (drain (w1, l)) = snd (drain (w2, l)).
Proof.
  induction n as [|n IH]; intros l w1 w2 L H; [lia|].
  rewrite (drain_step (w1, l)), (drain_step (w2, l)). cbn [snd].
  destruct (loop_guard l) eqn:G; [|split; [exact H | reflexivity]].
  destruct (send_frame_sim l w1 w2 H) as [H' E].
  pose proof (send_frame_decreases (w1, l) G) as Dec. cbn [snd] in Dec.
  destruct (send_frame (w1, l)) as [w1' l1].
  destruct (send_frame (w2, l)) as [w2' l2]. cbn [fst snd] in *. subst l2.
  apply IH; [lia | exact H'].
Qed.

Lemma resume_sim r l w1 w2 :
  R w1 w2 ->
  R (fst (resume r (w1, l))) (fst (resume r (w2, l)))
  /\ snd (resume r (w1, l)) = snd (resume r (w2, l)).
Proof.
  intros H.
  assert (forall l' w1' w2', R w1' w2' -> R (cleanup w1' l') (cleanup w2' l'))
    as C by (intros; unfold cleanup; destruct global_gc as [[|]|]; auto).
  unfold resume. destruct r as [audioFrame| |]; cbn [fst snd]; auto.
  unfold on_frame. destruct (Locals.callEnded l); [cbn [fst snd]; auto|].
  destruct audioFrame as [[[data|]]|]; try (cbn [fst snd]; auto).
  unfold protect. cbn [Locals.pcmBuffer Locals.set_counters].
  destruct (MAX_BUFFER_SIZE <? _).
  - match goal with |- context [drain (World.log ?e w1, ?l')] =>
      destruct (drain_sim (S (length (Locals.pcmBuffer l'))) l'
                  (World.log e w1) (World.log e w2) ltac:(lia) (R_log _ _ e H))
        as [H' E];
      destruct (drain (World.log e w1, l')) as [w1' l1];
      destruct (drain (World.log e w2, l')) as [w2' l2]
    end.
    cbn [fst snd] in *. subst l2. split; [exact H' | reflexivity].
  - match goal with |- context [drain (w1, ?l')] =>
      destruct (drain_sim (S (length (Locals.pcmBuffer l'))) l' w1 w2
                  ltac:(lia) H) as [H' E];
      destruct (drain (w1, l')) as [w1' l1];
      destruct (drain (w2, l')) as [w2' l2]
    end.
    cbn [fst snd] in *. subst l2. split; [exact H' | reflexivity].
Qed.

End Simulation.

(** A settlement does not read the session's [disposed] property. *)
Lemma resume_set_disposed b r (w : W) l :
  resume r (World.set_disposed b w, l)
  = (World.set_disposed b (fst (resume r (w, l))), snd (resume r (w, l))).
Proof.
  destruct (resume_sim (fun w1 w2 => w1 = World.set_disposed b w2)) with
    (r := r) (l := l) (w1 := World.set_disposed b w) (w2 := w) as [H E];
    try (intros; subst; reflexivity).
  destruct (resume r (World.set_disposed b w, l)) as [w' ph].
  cbn [fst snd] in H, E. now rewrite H, E.
Qed.

(** The event by which the call session announces a status. *)
Definition lifecycle_event (status : RingCentralLiveKitConnectorCallStatus) : Event :=
  match status with
  | ANSWERED => Emit_answered
  | BUSY => Emit_busy
  | DISPOSED => Emit_disposed
  end.

(** X17.  An invocation that is already running takes no notice of the
    lifecycle of the call: delivering [answered], [busy] or [disposed]
    before or after a settlement of its stream leads to the same state of
    the connector, so a frame that arrives after the call has ended is
    processed exactly as one that arrived before. *)
Theorem lifecycle_commutes_with_settlement status i r (s : Closure) :
  dispatch (Settle i r) (dispatch (lifecycle_event status) s)
  = dispatch (lifecycle_event status) (dispatch (Settle i r) s).
Proof.
  destruct s as [w rate chans ended a b d calls streams].
  destruct status; cbn [lifecycle_event dispatch].
  - destruct a; cbn [dispatch];
      destruct (nth_error streams i) as [[l|]|]; try reflexivity;
      destruct (resume r (w, l)); reflexivity.
  - destruct b; cbn [dispatch];
      destruct (nth_error streams i) as [[l|]|]; try reflexivity;
      destruct (resume r (w, l)); reflexivity.
  - destruct d; cbn [dispatch];
      destruct (nth_error streams i) as [[l|]|]; try reflexivity;
      rewrite resume_set_disposed; destruct (resume r (w, l)); reflexivity.
Qed.

(** What the outbound direction reads and writes of the shared objects,
    and of the closure. *)
Definition world_view (w : W) :=
  (World.disposed w, World.encoder w, World.encode_calls w,
   World.sendPacket_calls w, World.random_calls w).

Arguments world_view : simpl never.

Definition outbound_view (s : Closure) :=
  (world_view (Invite.world s), Invite.callEnded s, Invite.once_busy s,
   Invite.once_disposed s, Invite.streams s).

Definition inbound_or_answered (ev : Event) : bool :=
  is_audioPacket ev || emits ANSWERED ev.

Lemma resume_reads_world_view r l (w1 w2 : W) :
  world_view w1 = world_view w2 ->
  world_view (fst (resume r (w1, l))) = world_view (fst (resume r (w2, l)))
  /\ snd (resume r (w1, l)) = snd (resume r (w2, l)).
Proof.
  apply (resume_sim (fun a b => world_view a = world_view b));
    unfold world_view; intros; cbn;
    match goal with H : _ = _ |- _ => injection H as H1 H2 H3 H4 H5 end;
    congruence.
Qed.

Lemma ignored_by_outbound ev (s : Closure) :
  inbound_or_answered ev = true ->
  outbound_view (dispatch ev s) = outbound_view s.
Proof.
  intros N. destruct s as [w rate chans ended a b d calls streams].
  destruct ev; try discriminate N; cbn [dispatch].
  - destruct a; reflexivity.
  - unfold outbound_view, world_view, on_audioPacket. cbn [Invite.world].
    destruct (new_Uint8Array _ _ _) as [encoded|]; [|reflexivity].
    destruct (decode _ _) as [d' [pcm|]]; [|reflexivity].
    destruct (Int16Array.construct _ _ _ _) as [samples|]; [|reflexivity].
    destruct (captureFrame_throws _ _); reflexivity.
Qed.

Lemma outbound_reads_its_view ev (s1 s2 : Closure) :
  inbound_or_answered ev = false ->
  outbound_view s1 = outbound_view s2 ->
  outbound_view (dispatch ev s1) = outbound_view (dispatch ev s2).
Proof.
  intros N.
  destruct s1 as [w1 rate1 chans1 ended1 a1 b1 d1 calls1 streams1].
  destruct s2 as [w2 rate2 chans2 ended2 a2 b2 d2 calls2 streams2].
  unfold outbound_view.
  cbn [Invite.world Invite.callEnded Invite.once_busy Invite.once_disposed
       Invite.streams].
  intros E.
  pose proof (f_equal (fun t => fst (fst (fst (fst t)))) E) as V.
  pose proof (f_equal (fun t => snd (fst (fst (fst t)))) E) as Hc.
  pose proof (f_equal (fun t => snd (fst (fst t))) E) as Hb.
  pose proof (f_equal (fun t => snd (fst t)) E) as Hd.
  pose proof (f_equal snd E) as Hs.
  cbn [fst snd] in V, Hc, Hb, Hd, Hs. subst ended1 b1 d1 streams1. clear E.
  destruct ev; try discriminate N; cbn [dispatch].
  - destruct b2; cbn; now rewrite V.
  - assert (world_view (World.set_disposed true w1)
            = world_view (World.set_disposed true w2)) as V'
      by (unfold world_view in *; cbn; injection V as _ -> -> -> ->;
          reflexivity).
    destruct d2; cbn; now rewrite V'.
  - destruct (selected _ _); [|cbn; now rewrite V].
    unfold start. cbn [negb].
    unfold world_view in V. injection V as Vd Ve Vc Vs Vr.
    rewrite Vd, Vr.
    destruct (World.disposed w2) eqn:D2; cbn; unfold world_view; cbn;
      congruence.
  - destruct (nth_error streams2 stream) as [[l|]|]; try (cbn; now rewrite V).
    destruct (resume_reads_world_view r l w1 w2 V) as [V' P].
    destruct (resume r (w1, l)) as [w1' ph1].
    destruct (resume r (w2, l)) as [w2' ph2]. cbn in V', P |- *.
    now rewrite V', P.
Qed.

(** X18.  What is sent to the call does not depend on the inbound
    direction: the encoder, the frames encoded, the packets handed to
    [sendPacket], the flag and the invocations after any sequence of
    events are those after the same sequence without its audio packets and
    [answered] events. *)
Theorem call_audio_ignores_inbound_packets evs (s : Closure) :
  outbound_view (run_events evs s)
  = outbound_view
      (run_events (filter (fun ev => negb (inbound_or_answered ev)) evs) s).
Proof.
  assert (forall s1 s2 : Closure,
             outbound_view s1 = outbound_view s2 ->
             outbound_view (run_events evs s1)
             = outbound_view
                 (run_events
                    (filter (fun ev => negb (inbound_or_answered ev)) evs) s2))
    as G.
  { induction evs as [|ev evs IH]; intros s1 s2 E; [exact E|].
    cbn [run_events fold_left filter].
    fold (run_events evs (dispatch ev s1)).
    destruct (inbound_or_answered ev) eqn:A; cbn [negb].
    - match goal with |- _ = outbound_view (fold_left ?f ?l s2) =>
        change (fold_left f l s2) with (run_events l s2)
      end.
      apply IH. rewrite <- E. now apply ignored_by_outbound.
    - cbn [fold_left].
      match goal with |- _ = outbound_view (fold_left ?f ?l (dispatch ev s2)) =>
        change (fold_left f l (dispatch ev s2))
          with (run_events l (dispatch ev s2))
      end.
      apply IH. now apply outbound_reads_its_view. }
  apply G. reflexivity.
Qed.

(** Whether a settlement is anything but a frame that fails the
    validation of line 141. *)
Definition passes_validation (r : IteratorResult) : bool :=
  match r with
  | Yield audioFrame =>
    match chunk_of audioFrame with Some _ => true | None => false end
  | _ => true
  end.

Lemma resume_keeps_parameter r (w : W) l l' :
  snd (resume r (w, l)) = Running l' ->
  Locals.callEnded l' = Locals.callEnded l.
Proof.
  pose proof (resume_invariant
                (fun _ l1 => Locals.callEnded l1 = Locals.callEnded l)
                (fun _ => True)) as K.
  specialize (K ltac:(intros w1 l1 J _;
                      destruct (send_frame_cases w1 l1)
                        as [[e [_ ->]]|[[e [d [_ [_ ->]]]]
                                       |[e [d [_ [_ ->]]]]]]; exact J)
                ltac:(intros; assumption) ltac:(intros; assumption)
                ltac:(intros; assumption) ltac:(intros; exact I)
                ltac:(intros; exact I) r w l eq_refl).
  unfold phase_invariant in K. intros E. rewrite E in K. exact K.
Qed.

Lemma feed_skips_invalid rs :
  forall (w1 w2 : W) l,
    Locals.callEnded l = false ->
    world_view w1 = world_view w2 ->
    world_view (fst (feed rs (w1, Running l)))
    = world_view (fst (feed (filter passes_validation rs) (w2, Running l)))
    /\ snd (feed rs (w1, Running l))
       = snd (feed (filter passes_validation rs) (w2, Running l)).
Proof.
  induction rs as [|r rs IH]; intros w1 w2 l C V; [split; [exact V | reflexivity]|].
  rewrite feed_cons. cbn [filter].
  destruct (passes_validation r) eqn:K.
  - rewrite feed_cons.
    destruct (resume_reads_world_view r l w1 w2 V) as [V' P].
    pose proof (resume_keeps_parameter r w1 l) as Keep.
    destruct (resume r (w1, l)) as [w1' ph1].
    destruct (resume r (w2, l)) as [w2' ph2]. cbn [fst snd] in V', P, Keep.
    subst ph2. destruct ph1 as [l'|].
    + apply IH; [rewrite (Keep l' eq_refl); exact C | exact V'].
    + rewrite !feed_terminated. split; [exact V' | reflexivity].
  - destruct r as [audioFrame| |]; try discriminate K.
    rewrite resume_invalid;
      [|exact C
       |destruct audioFrame as [[[d|]]|]; [discriminate K | exact I | exact I]].
    apply IH; [exact C | exact V].
Qed.

(** X19.  On a call that has not ended, frames that fail the validation
    are skipped without a trace in the audio: the frames encoded, the
    packets sent and the state in which the invocation is left are those
    of the same stream without the invalid frames. *)
Theorem invalid_frames_are_skipped rs now (w0 : W) :
  let all := sendLivekitAudioStreamToCallSession (Some rs) false now w0 in
  let valid := sendLivekitAudioStreamToCallSession
                 (Some (filter passes_validation rs)) false now w0 in
  World.encode_calls (fst all) = World.encode_calls (fst valid)
  /\ World.sendPacket_calls (fst all) = World.sendPacket_calls (fst valid)
  /\ snd all = snd valid.
Proof.
  intros all valid. subst all valid. destruct (World.disposed w0) eqn:D.
  { rewrite !(disposed_at_entry _ _ _ _ D). repeat split. }
  unfold sendLivekitAudioStreamToCallSession. rewrite (start_running _ _ _ D).
  match goal with |- context [Running ?l] =>
    destruct (feed_skips_invalid rs (World.drew_random w0)
                (World.drew_random w0) l eq_refl eq_refl) as [V P]
  end.
  unfold world_view in V. injection V as _ _ Vc Vs _.
  repeat split; assumption.
Qed.

End Pipelines.

(** ** Concrete collaborators and runs *)

(** An encoder that returns the PCM unchanged and counts its calls. *)
Definition echo_encode (calls : nat) (pcm : bytes) : nat * option bytes :=
  (S calls, Some pcm).

(** The same encoder, throwing on its second call. *)
Definition flaky_encode (calls : nat) (pcm : bytes) : nat * option bytes :=
  (S calls, if calls =? 1 then None else Some pcm).

(** A decoder that returns the payload as PCM and throws on an empty one. *)
Definition echo_decode (u : unit) (payload : View.t) : unit * option View.t :=
  (u, if View.byteLength payload =? 0 then None else Some payload).

Definition accepts_all (_ : list AudioFrame.t) (_ : AudioFrame.t) : bool :=
  false.

Definition first_random (_ : nat) : Z := 0%Z.

(** A [sendPacket] that always returns, and one that always throws. *)
Definition delivers_all (_ : list RtpPacket.t) (_ : RtpPacket.t) : bool :=
  false.


Definition default_options : Options.t := Options.mk None true.

Definition fresh_world : World.t nat unit :=
  World.mk false 0 tt [] [] [] [] 0.

Definition silence (n : nat) : bytes := repeat x00 n.

Definition play (evs : list Event) : Invite.t (World.t nat unit) :=
  run_events echo_encode echo_decode 0 960 accepts_all first_random delivers_all None
    default_options evs (invited fresh_world).

Definition pipe (encode : nat -> bytes -> nat * option bytes)
    (rs : list IteratorResult) (now : Z) : World.t nat unit * Phase :=
  sendLivekitAudioStreamToCallSession encode 0 960 first_random delivers_all None
    (Some rs) false now fresh_world.

(** *** The flag of the caller is copied, not shared (C1) *)

Definition busy_mid_stream : list Event :=
  [ Emit_trackSubscribed KIND_AUDIO "agent" 1700000000000;
    Settle 0 (valid_frame (silence 640));
    Emit_busy;
    Settle 0 (valid_frame (silence 640)) ].

Definition disposed_mid_stream : list Event :=
  [ Emit_trackSubscribed KIND_AUDIO "agent" 1700000000000;
    Settle 0 (valid_frame (silence 640));
    Emit_disposed;
    Settle 0 (valid_frame (silence 640)) ].

(** C1.  The handlers of [busy] and [disposed] assign the variable of
    [inviteUserToRoom]; the invocation tests its own parameter, which
    received a copy of that variable when the track was subscribed.  After
    a frame, the event and a second frame, the flag is set (and, for
    [disposed], the session is disposed) before the second frame arrives,
    and the second frame is still encoded and handed to [sendPacket]; the
    invocation keeps running. *)
Theorem packets_sent_after_call_ended :
  (Invite.callEnded (play (firstn 3 busy_mid_stream)) = true
   /\ length (World.sendPacket_calls
                (Invite.world (play (firstn 3 busy_mid_stream)))) = 1
   /\ length (World.sendPacket_calls (Invite.world (play busy_mid_stream))) = 2
   /\ exists l, Invite.streams (play busy_mid_stream) = [Running l]
                /\ Locals.callEnded l = false)
  /\ (Invite.callEnded (play (firstn 3 disposed_mid_stream)) = true
      /\ World.disposed (Invite.world (play (firstn 3 disposed_mid_stream)))
         = true
      /\ length (World.sendPacket_calls
                   (Invite.world (play (firstn 3 disposed_mid_stream)))) = 1
      /\ length (World.sendPacket_calls
                   (Invite.world (play disposed_mid_stream))) = 2).
Proof.
  split.
  - split; [vm_compute; reflexivity|]. split; [vm_compute; reflexivity|].
    split; [vm_compute; reflexivity|].
    eexists. split; [vm_compute; reflexivity | reflexivity].
  - repeat split; vm_compute; reflexivity.
Qed.

(** *** The memory protection does not bound the buffer (C2) *)

(** The accumulation buffer right after lines 155-169 have run on
    [chunk], in a suspended invocation, and the overflow lines written. *)
Definition after_accumulation (chunk : bytes) (s : World.t nat unit * Phase)
  : option (nat * list Log) :=
  match snd s with
  | Running l =>
    let st := protect (length chunk) (fst s, l) in
    Some (length (Locals.pcmBuffer (accumulate chunk (snd st))),
          filter is_overflow (World.console (fst st)))
  | Terminated => None
  end.

(** C2.  A first chunk of 4000 bytes trips the protection (nothing was
    held, so nothing is dropped) and is then accumulated whole: the buffer
    holds 4000 bytes, above the 3200-byte ceiling, and all of them go on
    to the encoder.  A chunk of 2700 bytes that arrives while 600 bytes
    are pending does not trip it, the pending bytes not being counted, and
    the buffer grows to 3300 bytes. *)
Theorem buffer_exceeds_ceiling :
  MAX_BUFFER_SIZE = 3200
  /\ after_accumulation (silence 4000) (pipe echo_encode [] 0)
     = Some (4000, [LogOverflow 0])
  /\ length (World.encode_calls
               (fst (pipe echo_encode [valid_frame (silence 4000)] 0))) = 6
  /\ after_accumulation (silence 2700)
       (pipe echo_encode [valid_frame (silence 600)] 0)
     = Some (3300, []).
Proof. repeat split; vm_compute; reflexivity. Qed.

(** *** Three frames of 400, 400 and 200 bytes (C6) *)

Definition three_frames : list IteratorResult :=
  [ valid_frame (silence 400); valid_frame (silence 400);
    valid_frame (silence 200) ].

(** C6, as stated, fails: after the three frames one packet has been sent
    and the accumulation buffer holds 160 bytes, not 360; the other 200
    wait in the pending list. *)
Lemma accumulation_buffer_holds_160 :
  exists l,
    snd (pipe echo_encode three_frames 0) = Running l
    /\ length (World.sendPacket_calls (fst (pipe echo_encode three_frames 0))) = 1
    /\ length (Locals.pcmBuffer l) = 160
    /\ length (Locals.pcmBuffer l) <> 360
    /\ map (@length byte) (Locals.tempBuffer l) = [200].
Proof.
  eexists. split; [vm_compute; reflexivity|].
  split; [vm_compute; reflexivity|]. split; [reflexivity|].
  split; [discriminate | reflexivity].
Qed.

Lemma three_frames_one_packet_witness :
  exists l pkt,
    snd (pipe echo_encode three_frames 0) = Running l
    /\ World.sendPacket_calls (fst (pipe echo_encode three_frames 0)) = [pkt]
    /\ length (RtpPacket.payload pkt) = 640
    /\ length (Locals.pcmBuffer l) = 160
    /\ Locals.tempBuffer l = [silence 200].
Proof.
  destruct (three_frames_one_packet _ echo_encode unit 0%Z 960%Z first_random delivers_all
              None (silence 400) (silence 400) (silence 200) 0%Z fresh_world
              1 (firstn 640 (silence 400 ++ silence 400))
              eq_refl eq_refl eq_refl eq_refl eq_refl)
    as [l [pkt [R [_ [_ [S [P [_ [L [T _]]]]]]]]]].
  exists l, pkt. split; [exact R|]. split; [exact S|].
  split; [rewrite P; reflexivity|]. split; [exact L | exact T].
Defined.

(** *** Odd decoded lengths (C10) *)

Definition three_bytes : View.t := View.mk [] [x01; x02; x03] [].
Definition four_bytes : View.t := View.mk [] [x01; x02; x03; x04] [].
Definition no_bytes : View.t := View.mk [] [] [].
Definition misaligned : View.t := View.mk [x00] [x01; x02; x03] [].

(** C10, as stated, fails: a decoded PCM of 3 bytes at offset 0 is built
    into an [Int16Array] of one sample, and its frame is published. *)
Lemma odd_length_pcm_is_published :
  Nat.odd (View.byteLength three_bytes) = true
  /\ Int16Array.construct (View.buffer three_bytes)
       (View.byteOffset three_bytes) (View.byteLength three_bytes)
       Int16Array.BYTES_PER_ELEMENT
     = Some (Int16Array.mk [x01; x02; x03] 0 1)
  /\ map AudioFrame.samplesPerChannel
       (World.source (Invite.world (play [Emit_audioPacket three_bytes])))
     = [1]
  /\ World.console (Invite.world (play [Emit_audioPacket three_bytes])) = [].
Proof. repeat split. Qed.

Lemma odd_length_pcm_is_truncated_witness :
  Nat.odd (View.byteLength misaligned) = true
  /\ World.source (Invite.world (play [Emit_audioPacket misaligned])) = []
  /\ World.console (Invite.world (play [Emit_audioPacket misaligned]))
     = [ErrCaptureFrame]
  /\ World.source
       (Invite.world (play [Emit_audioPacket misaligned;
                            Emit_audioPacket four_bytes]))
     = [inbound_frame 16000 1 four_bytes].
Proof.
  split; [reflexivity|].
  destruct (odd_length_pcm_is_truncated _ echo_encode _ echo_decode 0%Z 960%Z
              accepts_all first_random delivers_all None default_options []
              fresh_world
              misaligned tt misaligned four_bytes tt four_bytes
              eq_refl eq_refl) as [_ [_ [_ F]]].
  destruct (F eq_refl) as [S [C N]].
  split; [exact S|]. split; [exact C|]. exact (N eq_refl eq_refl eq_refl).
Defined.

(** *** Inbound packets (C7, C8) *)

Lemma inbound_capture_sample_count_witness :
  Nat.even (View.byteOffset four_bytes) = true
  /\ exists frame,
       World.source (Invite.world (play [Emit_audioPacket four_bytes]))
       = [frame]
       /\ AudioFrame.samplesPerChannel frame = 2
       /\ AudioFrame.sampleRate frame = 16000%Z
       /\ AudioFrame.channels frame = 1%Z.
Proof.
  split; [reflexivity|].
  destruct (inbound_capture_sample_count _ echo_encode _ echo_decode 0%Z 960%Z
              accepts_all first_random delivers_all None default_options []
              fresh_world
              four_bytes tt four_bytes eq_refl eq_refl eq_refl)
    as [frame [S [N [_ [_ [R C]]]]]].
  exists frame. split; [exact S|]. split; [exact N|]. split; [exact R | exact C].
Defined.

Lemma inbound_error_is_contained_witness :
  inbound_throws echo_decode accepts_all 16000 1 no_bytes fresh_world = true
  /\ World.console (Invite.world (play [Emit_audioPacket no_bytes]))
     = [ErrCaptureFrame]
  /\ World.source (Invite.world (play [Emit_audioPacket no_bytes])) = []
  /\ World.source
       (Invite.world (play [Emit_audioPacket no_bytes;
                            Emit_audioPacket four_bytes]))
     = [inbound_frame 16000 1 four_bytes].
Proof.
  split; [reflexivity|].
  destruct (inbound_error_is_contained _ echo_encode _ echo_decode 0%Z 960%Z
              accepts_all first_random delivers_all None default_options []
              fresh_world
              no_bytes four_bytes tt four_bytes eq_refl) as [[C S] N].
  split; [exact C|]. split; [exact S|].
  exact (proj1 (N eq_refl eq_refl eq_refl)).
Defined.

(** *** Outbound numbering, ssrc, encoder failure, conservation
        (C4, C9, C5, C3) *)

(** Three whole frames, the clock at 65535 s: the sequence number starts
    at 65535 and wraps. *)
Definition whole_frames : list IteratorResult :=
  [ valid_frame (silence 640); valid_frame (silence 640);
    valid_frame (silence 640) ].

Lemma outbound_sequence_and_timestamp_witness :
  (0 <= 65535000)%Z
  /\ exists emitted,
       World.sendPacket_calls (fst (pipe echo_encode whole_frames 65535000))
       = emitted
       /\ length emitted = 3
       /\ forall pkt, nth_error emitted 1 = Some pkt ->
            RtpHeader.sequenceNumber (RtpPacket.header pkt) = 0%Z
            /\ RtpHeader.timestamp (RtpPacket.header pkt) = (65535 + 960)%Z.
Proof.
  split; [lia|].
  destruct (outbound_sequence_and_timestamp _ echo_encode unit 0%Z 960%Z
              first_random delivers_all None whole_frames false 65535000%Z fresh_world
              ltac:(lia)) as [emitted [E A]].
  change (World.sendPacket_calls fresh_world ++ emitted) with emitted in E.
  exists emitted. split; [exact E|]. split.
  - rewrite <- E. vm_compute. reflexivity.
  - intros pkt H. destruct (A 2 pkt ltac:(lia) H) as [Sq [_ [Ts _]]].
    split; [exact Sq | exact Ts].
Defined.

Lemma outbound_ssrc_constant_witness :
  (0 <= first_random 0 < RANDOM_RESOLUTION)%Z
  /\ World.random_calls (fst (pipe echo_encode whole_frames 0)) = 1
  /\ Forall (fun pkt => RtpHeader.ssrc (RtpPacket.header pkt) = 1024%Z
                        /\ RtpHeader.version (RtpPacket.header pkt) = 2%Z)
       (World.sendPacket_calls (fst (pipe echo_encode whole_frames 0))).
Proof.
  assert (0 <= first_random 0 < RANDOM_RESOLUTION)%Z as B
    by (split; [discriminate | reflexivity]).
  split; [exact B|].
  destruct (outbound_ssrc_constant _ echo_encode unit 0%Z 960%Z first_random
              delivers_all None whole_frames false 0%Z fresh_world B)
    as [_ [R [emitted [E F]]]].
  split; [exact R|]. change (World.sendPacket_calls fresh_world) with
    (@nil RtpPacket.t) in E. cbn [app] in E.
  unfold pipe. rewrite E. revert F. apply Forall_impl.
  intros pkt [S [V _]]. split; [exact S | exact V].
Defined.






Lemma encoded_bytes_conservation_witness :
  World.disposed fresh_world = false
  /\ overflows (World.console (fst (pipe echo_encode (three_frames ++ [Done]) 0)))
     = 0
  /\ exists frames,
       World.encode_calls (fst (pipe echo_encode (three_frames ++ [Done]) 0))
       = frames
       /\ Forall (fun f => length f = 640) frames
       /\ length (concat frames) = 1000 - 1000 mod 640.
Proof.
  split; [reflexivity|]. split; [vm_compute; reflexivity|].
  destruct (encoded_bytes_conservation _ echo_encode unit 0%Z 960%Z
              first_random delivers_all None
              [silence 400; silence 400; silence 200] true 0%Z fresh_world
              eq_refl)
    as [[frames [E [A [L _]]]] _].
  { vm_compute. reflexivity. }
  exists frames. split; [exact E|]. split; [exact A | exact L].
Defined.

(** *** Runs for the further properties *)

(** Two valid frames of 400 bytes around a null frame and a frame without
    data. *)
Definition mixed_frames : list (option RoomFrame.t) :=
  [ Some (RoomFrame.mk (Some (silence 400))); None;
    Some (RoomFrame.mk None); Some (RoomFrame.mk (Some (silence 400))) ].

Lemma encoded_frames_are_sent_or_reported_witness :
  (forall handed rtpPacket, delivers_all handed rtpPacket = false)
  /\ length (World.sendPacket_calls (fst (pipe flaky_encode whole_frames 0)))
     + encoding_errors (World.console (fst (pipe flaky_encode whole_frames 0)))
     + length (World.encode_calls fresh_world)
     = length (World.encode_calls (fst (pipe flaky_encode whole_frames 0)))
       + length (World.sendPacket_calls fresh_world)
       + encoding_errors (World.console fresh_world)
  /\ length (World.sendPacket_calls (fst (pipe flaky_encode whole_frames 0)))
     = 2
  /\ encoding_errors (World.console (fst (pipe flaky_encode whole_frames 0)))
     = 1.
Proof.
  assert (forall handed rtpPacket, delivers_all handed rtpPacket = false) as N
    by (intros; reflexivity).
  split; [exact N|]. split; [|split; vm_compute; reflexivity].
  exact (proj2 (encoded_frames_are_sent_or_reported _ flaky_encode unit 0%Z
                  960%Z first_random delivers_all None whole_frames false 0%Z
                  fresh_world) N).
Defined.

Lemma little_is_held_between_frames_witness :
  World.disposed fresh_world = false
  /\ exists l,
       snd (pipe echo_encode (map Yield mixed_frames) 0) = Running l
       /\ length (Locals.pcmBuffer l) + length (concat (Locals.tempBuffer l))
          < 640
       /\ length (Locals.tempBuffer l) <= 3.
Proof.
  split; [reflexivity|].
  exact (little_is_held_between_frames _ echo_encode unit 0%Z 960%Z
           first_random delivers_all None mixed_frames 0%Z fresh_world eq_refl).
Defined.

Lemma summary_counts_valid_frames_witness :
  World.disposed fresh_world = false
  /\ snd (pipe echo_encode (map Yield mixed_frames ++ [Done]) 0) = Terminated
  /\ exists before,
       World.console (fst (pipe echo_encode (map Yield mixed_frames ++ [Done]) 0))
       = before ++ [LogCompleted 2 1 0; LogFinished].
Proof.
  split; [reflexivity|].
  exact (summary_counts_valid_frames _ echo_encode unit 0%Z 960%Z
           first_random delivers_all None mixed_frames false 0%Z fresh_world
           eq_refl).
Defined.

Lemma small_frames_are_never_dropped_witness :
  Forall (fun c => length c <= 2560) [silence 400; silence 400; silence 200]
  /\ overflows (World.console (fst (pipe echo_encode three_frames 0))) = 0
  /\ exists frames l,
       snd (pipe echo_encode three_frames 0) = Running l
       /\ World.encode_calls (fst (pipe echo_encode three_frames 0)) = frames
       /\ Forall (fun f => length f = 640) frames.
Proof.
  assert (Forall (fun c => length c <= 2560)
            [silence 400; silence 400; silence 200]) as S
    by (repeat constructor; apply Nat.leb_le; reflexivity).
  split; [exact S|].
  destruct (small_frames_are_never_dropped _ echo_encode unit 0%Z 960%Z
              first_random delivers_all None
              [silence 400; silence 400; silence 200] 0%Z fresh_world
              eq_refl S)
    as [O [frames [l [R [E [A _]]]]]].
  split; [exact O|]. exists frames, l. split; [exact R|].
  split; [exact E | exact A].
Defined.

(** 100 bytes in the accumulation buffer and 500 pending, when a chunk of
    3150 bytes arrives. *)
Definition before_overflow : Locals.t :=
  Locals.mk false 1024 (silence 100) (silence 640) [silence 500] 2 600 0 0 0.

Lemma overflow_drops_everything_held_witness :
  MAX_BUFFER_SIZE < length (Locals.pcmBuffer before_overflow) + 3150
  /\ exists w' l' frames,
       resume echo_encode 0 960 delivers_all None (valid_frame (silence 3150))
         (fresh_world, before_overflow) = (w', Running l')
       /\ In (LogOverflow 100) (World.console w')
       /\ World.encode_calls w' = frames
       /\ concat frames ++ Locals.pcmBuffer l' ++ concat (Locals.tempBuffer l')
          = silence 3150.
Proof.
  assert (MAX_BUFFER_SIZE < length (Locals.pcmBuffer before_overflow) + 3150)
    as T by (apply Nat.ltb_lt; reflexivity).
  split; [exact T|].
  exact (overflow_drops_everything_held _ echo_encode unit 0%Z 960%Z
           delivers_all None (silence 3150) fresh_world before_overflow eq_refl eq_refl T).
Defined.

Lemma packets_are_told_apart_witness :
  (0 <= 65535000)%Z
  /\ exists emitted,
       World.sendPacket_calls (fst (pipe echo_encode whole_frames 65535000))
       = emitted
       /\ forall p q,
            nth_error emitted 0 = Some p -> nth_error emitted 2 = Some q ->
            RtpHeader.sequenceNumber (RtpPacket.header p)
            <> RtpHeader.sequenceNumber (RtpPacket.header q)
            /\ (RtpHeader.timestamp (RtpPacket.header p)
                < RtpHeader.timestamp (RtpPacket.header q))%Z.
Proof.
  split; [lia|].
  destruct (packets_are_told_apart _ echo_encode unit 0%Z 960%Z first_random delivers_all
              None whole_frames false 65535000%Z fresh_world ltac:(lia))
    as [emitted [E A]].
  exists emitted. split; [exact E|]. intros p q Hp Hq.
  destruct (A 0 2 p q Hp Hq ltac:(lia)) as [S T].
  split; [apply S; lia | apply T; lia].
Defined.

Lemma randomInt_covers_range_witness :
  (1024 <= 65535 <= 65535)%Z
  /\ exists r, (0 <= r < RANDOM_RESOLUTION)%Z /\ randomInt r = 65535%Z.
Proof.
  split; [lia|]. exact (proj1 (randomInt_covers_range 65535 ltac:(lia))).
Defined.
